(** * The iframe proxy worker ([src/worker/proxy.js])

    A shallow embedding of the Cloudflare worker that fetches a target page,
    strips the headers that forbid framing, and rewrites the references of
    HTML and CSS bodies so that they go through the proxy again.

    Text is represented by its UTF-8 encoding: a [string] is the sequence of
    bytes of the text.  The worker obtains every text it rewrites from
    [response.text()], which decodes UTF-8, and all the characters its
    patterns name are ASCII, so that prefix tests, searches and the regular
    expressions of the source act on the bytes as they act on the code units,
    and [encodeURIComponent] escapes the bytes one by one. *)

From Stdlib Require Import String Ascii List Bool Arith Lia ZArith.
Import ListNotations.
Open Scope list_scope.
Open Scope string_scope.

(** ** JavaScript string primitives *)

Module JS.

(** The double quote, which a literal cannot hold. *)
Definition dquote : ascii := "034"%char.
Definition squote : ascii := "'"%char.

Definition chr (c : ascii) : string := String c "".

Fixpoint drop (n : nat) (s : string) : string :=
  match n, s with
  | S n', String _ s' => drop n' s'
  | _, _ => s
  end.

Fixpoint take (n : nat) (s : string) : string :=
  match n, s with
  | S n', String c s' => String c (take n' s')
  | _, _ => ""
  end.

(** The 256 characters. *)
Definition all_ascii : list ascii := map ascii_of_nat (seq 0 256).

(** Every character of [s] satisfies [p]. *)
Fixpoint all_chars (p : ascii -> bool) (s : string) : bool :=
  match s with
  | "" => true
  | String c s' => p c && all_chars p s'
  end.

(** [s.startsWith(p)] *)
Definition startsWith (s p : string) : bool := prefix p s.

(** [s.includes(p)] *)
Fixpoint includes (s p : string) : bool :=
  match s with
  | "" => prefix p ""
  | String _ s' => prefix p s || includes s' p
  end.

(** [s.replace(p, r)] for a pattern string [p] and a replacement [r] that
    holds no [$]: the first occurrence of [p] is replaced. *)
Fixpoint replace (s p r : string) : string :=
  if prefix p s then r ++ drop (String.length p) s
  else match s with
       | "" => ""
       | String c s' => String c (replace s' p r)
       end.

(** The code of [c] lies between the codes [lo] and [hi]. *)
Definition between (lo hi : nat) (c : ascii) : bool :=
  Nat.leb lo (nat_of_ascii c) && Nat.leb (nat_of_ascii c) hi.

(** [key.toLowerCase()] on the letters A-Z; header names are ASCII tokens. *)
Definition lower_ascii (c : ascii) : ascii :=
  if between 65 90 c then ascii_of_nat (nat_of_ascii c + 32) else c.

Definition upper_ascii (c : ascii) : ascii :=
  if between 97 122 c then ascii_of_nat (nat_of_ascii c - 32) else c.

Fixpoint toLowerCase (s : string) : string :=
  match s with
  | "" => ""
  | String c s' => String (lower_ascii c) (toLowerCase s')
  end.

(** [s.split(c)] for a separator of one character. *)
Fixpoint split (sep : ascii) (s : string) : list string :=
  match s with
  | "" => [""]
  | String c s' =>
      if Ascii.eqb c sep then "" :: split sep s'
      else match split sep s' with
           | [] => [chr c]
           | w :: ws => String c w :: ws
           end
  end.

(** [parts.join(sep)] *)
Definition join (sep : string) (parts : list string) : string :=
  String.concat sep parts.

(** The characters [encodeURIComponent] leaves alone:
    A-Z a-z 0-9 - _ . ! ~ * ' ( ) *)
Definition unreserved (c : ascii) : bool :=
  between 65 90 c || between 97 122 c || between 48 57 c
  || existsb (Ascii.eqb c) ["-"; "_"; "."; "!"; "~"; "*"; "'"; "("; ")"]%char.

Definition hex_digit (n : nat) : ascii :=
  nth n (list_ascii_of_string "0123456789ABCDEF") "0"%char.

Definition percent (c : ascii) : string :=
  let n := nat_of_ascii c in
  String "%" (String (hex_digit (n / 16)) (String (hex_digit (n mod 16)) "")).

(** [encodeURIComponent(s)]: every byte of the UTF-8 encoding that is not
    unreserved becomes [%XX] with upper-case hexadecimal digits. *)
Fixpoint encodeURIComponent (s : string) : string :=
  match s with
  | "" => ""
  | String c s' =>
      (if unreserved c then chr c else percent c) ++ encodeURIComponent s'
  end.

(** *** White space

    [trim] and the class [\s] recognise the same characters: TAB, LF, VT,
    FF, CR, SPACE, U+00A0, U+1680, U+2000..U+200A, U+2028, U+2029, U+202F,
    U+205F, U+3000 and U+FEFF.  [ws_table] lists their UTF-8 encodings. *)
Definition bytes (codes : list nat) : string :=
  string_of_list_ascii (map ascii_of_nat codes).

Definition ws_table : list string :=
  map bytes
    ([[9]; [10]; [11]; [12]; [13]; [32]; [194; 160]; [225; 154; 128]]
     ++ map (fun z => [226; 128; z]) (seq 128 11)
     ++ [[226; 128; 168]; [226; 128; 169]; [226; 128; 175];
         [226; 129; 159]; [227; 128; 128]; [239; 187; 191]])%list.

(** Number of bytes of the white-space character [s] starts with, [0]
    when it starts with none. *)
Definition ws_width (s : string) : nat :=
  match find (fun w => prefix w s) ws_table with
  | Some w => String.length w
  | None => 0
  end.

(** Each byte of [s] with the mark of the bytes that belong to a
    white-space character; [skip] bytes of one are still to come. *)
Fixpoint mark_from (skip : nat) (s : string) : list (ascii * bool) :=
  match s with
  | "" => []
  | String c s' =>
      match skip with
      | S k => (c, true) :: mark_from k s'
      | O => match ws_width s with
             | O => (c, false) :: mark_from 0 s'
             | S k => (c, true) :: mark_from k s'
             end
      end
  end.

Definition mark (s : string) : list (ascii * bool) := mark_from 0 s.

Definition unmark (l : list (ascii * bool)) : string :=
  string_of_list_ascii (map fst l).

Fixpoint drop_ws (l : list (ascii * bool)) : list (ascii * bool) :=
  match l with
  | (_, true) :: l' => drop_ws l'
  | _ => l
  end.

(** [s.trim()] *)
Definition trim (s : string) : string :=
  unmark (rev (drop_ws (rev (drop_ws (mark s))))).

Fixpoint fields (l : list (ascii * bool)) : list string :=
  match l with
  | [] => [""]
  | (c, false) :: l' =>
      match fields l' with
      | w :: ws => String c w :: ws
      | [] => [chr c]
      end
  | (_, true) :: l' =>
      match l' with
      | (_, true) :: _ => fields l'
      | _ => "" :: fields l'
      end
  end.

(** [s.split(/\s+/)] *)
Definition split_ws (s : string) : list string := fields (mark s).

End JS.

(** ** Regular expressions

    The patterns of the source, matched by backtracking as the language
    does: alternatives left to right, [?] and [+] greedy.  [+] is applied to
    character classes only, which is all the source does. *)

Module RegExp.
Import JS.

Inductive cclass : Type :=
| Only (cs : list ascii)      (* [...] *)
| Except (cs : list ascii).   (* [^...] *)

Inductive regex : Type :=
| Eps
| Chr (c : ascii)
| Cls (k : cclass)
| Cat (r1 r2 : regex)
| Or (r1 r2 : regex)
| Opt (r : regex)
| Plus (k : cclass)
| Grp (r : regex).

Fixpoint Str (s : string) : regex :=
  match s with
  | "" => Eps
  | String c s' => Cat (Chr c) (Str s')
  end.

(** Under the [i] flag two characters match when their upper-case forms
    agree; a character outside ASCII never matches an ASCII one. *)
Definition canon (i : bool) (c : ascii) : ascii :=
  if i then upper_ascii c else c.

Definition chr_matches (i : bool) (p c : ascii) : bool :=
  Ascii.eqb (canon i p) (canon i c).

Definition cls_matches (i : bool) (k : cclass) (c : ascii) : bool :=
  match k with
  | Only cs => existsb (fun p => chr_matches i p c) cs
  | Except cs => negb (existsb (fun p => chr_matches i p c) cs)
  end.

Definition captures : Type := list string.

Section Matcher.
Context {A : Type}.

(** One or more characters satisfying [p], the longest run first. *)
Fixpoint plus (p : ascii -> bool) (s : string) (k : string -> option A)
  : option A :=
  match s with
  | "" => None
  | String c s' =>
      if p c then
        match plus p s' k with
        | Some x => Some x
        | None => k s'
        end
      else None
  end.

(** [run i r s caps k]: match [r] at the head of [s], then continue with
    [k] on what is left; [None] makes the matcher backtrack.  A group
    appends the text it matched to the captures. *)
Fixpoint run (i : bool) (r : regex) (s : string) (caps : captures)
  (k : string -> captures -> option A) : option A :=
  match r with
  | Eps => k s caps
  | Chr p =>
      match s with
      | String c s' => if chr_matches i p c then k s' caps else None
      | "" => None
      end
  | Cls cl =>
      match s with
      | String c s' => if cls_matches i cl c then k s' caps else None
      | "" => None
      end
  | Cat r1 r2 => run i r1 s caps (fun s1 c1 => run i r2 s1 c1 k)
  | Or r1 r2 =>
      match run i r1 s caps k with
      | Some x => Some x
      | None => run i r2 s caps k
      end
  | Opt r1 =>
      match run i r1 s caps k with
      | Some x => Some x
      | None => k s caps
      end
  | Plus cl => plus (cls_matches i cl) s (fun s1 => k s1 caps)
  | Grp r1 =>
      run i r1 s caps
        (fun s1 c1 =>
           k s1 (c1 ++ [take (String.length s - String.length s1) s])%list)
  end.
End Matcher.

(** What the patterns mean: [matches i r m c0 c1] when [r] matches the
    text [m] and extends the captures [c0] to [c1]. *)
Inductive matches (i : bool) : regex -> string -> captures -> captures -> Prop :=
| M_Eps c0 : matches i Eps "" c0 c0
| M_Chr p c c0 : chr_matches i p c = true -> matches i (Chr p) (chr c) c0 c0
| M_Cls k c c0 : cls_matches i k c = true -> matches i (Cls k) (chr c) c0 c0
| M_Cat r1 r2 m1 m2 c0 c1 c2 :
    matches i r1 m1 c0 c1 -> matches i r2 m2 c1 c2 ->
    matches i (Cat r1 r2) (m1 ++ m2) c0 c2
| M_Or_l r1 r2 m c0 c1 : matches i r1 m c0 c1 -> matches i (Or r1 r2) m c0 c1
| M_Or_r r1 r2 m c0 c1 : matches i r2 m c0 c1 -> matches i (Or r1 r2) m c0 c1
| M_Opt_some r m c0 c1 : matches i r m c0 c1 -> matches i (Opt r) m c0 c1
| M_Opt_none r c0 : matches i (Opt r) "" c0 c0
| M_Plus k m c0 :
    m <> "" -> all_chars (cls_matches i k) m = true ->
    matches i (Plus k) m c0 c0
| M_Grp r m c0 c1 :
    matches i r m c0 c1 -> matches i (Grp r) m c0 (c1 ++ [m])%list.

(** A match at the head of [s]: the captures and the text after the
    match. *)
Definition exec (i : bool) (r : regex) (s : string)
  : option (captures * string) :=
  run i r s [] (fun s1 c1 => Some (c1, s1)).

(** [s.replace(r, f)] with the [g] flag and a callback [f], which
    receives the matched text and the captures.  The pattern is tried at
    each position from the left; after a match the search goes on behind
    it ([skip] counts the characters of the match still to pass). *)
Fixpoint replace_from (i : bool) (r : regex)
  (f : string -> captures -> string) (skip : nat) (s : string) : string :=
  match s with
  | "" =>
      match skip, exec i r "" with
      | O, Some (caps, _) => f "" caps
      | _, _ => ""
      end
  | String c s' =>
      match skip with
      | S n => replace_from i r f n s'
      | O =>
          match exec i r s with
          | None => String c (replace_from i r f 0 s')
          | Some (caps, rest) =>
              match String.length s - String.length rest with
              | O => f "" caps ++ String c (replace_from i r f 0 s')
              | S n => f (take (S n) s) caps ++ replace_from i r f n s'
              end
          end
      end
  end.

Definition replace_all (i : bool) (r : regex)
  (f : string -> captures -> string) (s : string) : string :=
  replace_from i r f 0 s.

End RegExp.

(** ** Headers, bodies and responses of the Fetch API *)

Module Http.
Import JS.

(** A thrown exception, with its [message]. *)
Inductive result (A : Type) : Type :=
| Ok (a : A)
| Throw (message : string).
Arguments Ok {A} a.
Arguments Throw {A} message.

(** A [Headers] object, as the list of the [name, value] pairs that
    iterating it yields.  Names are compared without regard to case. *)
Definition Headers : Type := list (string * string).

Definition same_name (a b : string) : bool :=
  String.eqb (toLowerCase a) (toLowerCase b).

(** [headers.get(name)]: the values of the headers of that name, joined
    by a comma and a space; [None] for [null]. *)
Definition get (name : string) (h : Headers) : option string :=
  match filter (fun kv => same_name (fst kv) name) h with
  | [] => None
  | kvs => Some (join ", " (map snd kvs))
  end.

(** [headers.set(name, value)]: the first header of that name takes the
    value and the others go; without one the header is appended. *)
Fixpoint set (name value : string) (h : Headers) : Headers :=
  match h with
  | [] => [(name, value)]
  | (k, v) :: h' =>
      if same_name k name
      then (k, value) :: filter (fun kv => negb (same_name (fst kv) name)) h'
      else (k, v) :: set name value h'
  end.

Inductive Body : Type :=
| Null                       (* null *)
| Text (s : string)          (* a string *)
| Stream (content : string). (* a ReadableStream of bytes *)

Record Response : Type := mkResponse {
  status : nat;
  headers : Headers;
  body : Body
}.

(** Statuses whose response has no body. *)
Definition null_body_status (st : nat) : bool :=
  existsb (Nat.eqb st) [101; 103; 204; 205; 304].

(** The messages of the two exceptions of the constructor (their wording
    is the runtime's). *)
Definition status_out_of_range : string :=
  "Responses may only be constructed with status codes in the range 200 to 599, inclusive.".
Definition body_not_allowed : string :=
  "Response with null body status (101, 204, 205, or 304) cannot have a body.".

(** [new Response(body, { status, headers })] as the Fetch standard has it:
    a [RangeError] for a status outside 200..599, a [TypeError] for a body
    with a null-body status; a string body without a content type is
    [text/plain].  The runtime of the worker departs from the standard in
    one place, which this constructor does not follow: with a null-body
    status it takes the empty string for no body. *)
Definition new_Response (b : Body) (st : nat) (h : Headers)
  : result Response :=
  if negb (Nat.leb 200 st && Nat.leb st 599) then Throw status_out_of_range
  else match b with
       | Null => Ok (mkResponse st h Null)
       | Text _ =>
           if null_body_status st then Throw body_not_allowed
           else Ok (mkResponse st
                      (match get "Content-Type" h with
                       | None => (h ++ [("content-type", "text/plain;charset=UTF-8")])%list
                       | Some _ => h
                       end) b)
       | Stream _ =>
           if null_body_status st then Throw body_not_allowed
           else Ok (mkResponse st h b)
       end.

(** The part of a [Request] the worker reads: the method, the query
    parameters of [request.url] and the headers. *)
Record Request : Type := mkRequest {
  method : string;
  searchParams : list (string * string);
  request_headers : Headers
}.

(** [url.searchParams.get(name)]: the first value of that name. *)
Fixpoint searchParams_get (name : string) (ps : list (string * string))
  : option string :=
  match ps with
  | [] => None
  | (k, v) :: ps' =>
      if String.eqb k name then Some v else searchParams_get name ps'
  end.

End Http.

(** ** The worker *)

Module Proxy.
Import JS RegExp Http.

Definition PROXY_URL : string := "https://tv-proxy.shariflii.workers.dev".

Definition corsHeaders : Headers :=
  [ ("Access-Control-Allow-Origin", "*");
    ("Access-Control-Allow-Methods", "GET, OPTIONS");
    ("Access-Control-Allow-Headers", "*") ].

(** The body of the loop of [cleanHeaders]. *)
Definition copy_header (newHeaders : Headers) (kv : string * string)
  : Headers :=
  let k := toLowerCase (fst kv) in
  if String.eqb k "x-frame-options" then newHeaders
  else if String.eqb k "content-security-policy" then newHeaders
  else if String.eqb k "content-security-policy-report-only" then newHeaders
  else set (fst kv) (snd kv) newHeaders.

Definition cleanHeaders (headers : Headers) : Headers :=
  let newHeaders := fold_left copy_header headers [] in
  set "Access-Control-Allow-Origin" "*" newHeaders.

Definition proxyUrl (originalUrl baseUrl : string) : string :=
  let absolute :=
    if startsWith originalUrl "//" then "https:" ++ originalUrl
    else if startsWith originalUrl "/" then baseUrl ++ originalUrl
    else if startsWith originalUrl "http" then originalUrl
    else baseUrl ++ "/" ++ originalUrl in
  PROXY_URL ++ "/?url=" ++ encodeURIComponent absolute.

Definition fixScript : string :=
  "<script>(function(){try{history.pushState=history.replaceState=function(){};}catch(e){}})();</script>".

Definition quotes : list ascii := [dquote; squote].

Declare Scope regex_scope.
Delimit Scope regex_scope with re.
Notation "r1 >> r2" := (Cat r1 r2)
  (at level 60, right associativity) : regex_scope.

(** The patterns below are written with Q for the pair of the double and
    the single quote character.

    [/(src|href)=[Q]([^Q]+)[Q]/gi] *)
Definition attr_re : regex :=
  (Grp (Or (Str "src") (Str "href")) >> Chr "=" >> Cls (Only quotes) >>
   Grp (Plus (Except quotes)) >> Cls (Only quotes))%re.

(** [/srcset=[Q]([^Q]+)[Q]/gi] *)
Definition srcset_re : regex :=
  (Str "srcset=" >> Cls (Only quotes) >> Grp (Plus (Except quotes)) >>
   Cls (Only quotes))%re.

(** [/url\([Q]?([^)Q]+)[Q]?\)/gi] *)
Definition css_re : regex :=
  (Str "url" >> Chr "(" >> Opt (Cls (Only quotes)) >>
   Grp (Plus (Except (")"%char :: quotes))) >> Opt (Cls (Only quotes)) >>
   Chr ")")%re.

(** [x || d] for a string, [null] or [undefined] [x]: the empty string is
    falsy as they are. *)
Definition or_else (x : option string) (d : string) : string :=
  match x with
  | Some (String _ _ as s) => s
  | _ => d
  end.

(** The callback of the first replacement of [rewriteHtml]. *)
Definition rewrite_attr (baseUrl : string) (match_ : string)
  (groups : captures) : string :=
  let attr := nth 0 groups "" in
  let url := nth 1 groups "" in
  if startsWith url "data:" || startsWith url "javascript:"
     || startsWith url "#"
  then match_
  else attr ++ "=" ++ chr dquote ++ proxyUrl url baseUrl ++ chr dquote.

(** One candidate of a [srcset]. *)
Definition rewrite_candidate (baseUrl : string) (part : string) : string :=
  let tokens := split_ws (trim part) in
  let url := hd "" tokens in
  let size := nth_error tokens 1 in
  trim (proxyUrl url baseUrl ++ " " ++ or_else size "").

(** The callback of the second replacement of [rewriteHtml]. *)
Definition rewrite_srcset (baseUrl : string) (match_ : string)
  (groups : captures) : string :=
  let srcset := nth 0 groups "" in
  let rewritten :=
    join ", " (map (rewrite_candidate baseUrl) (split "," srcset)) in
  "srcset=" ++ chr dquote ++ rewritten ++ chr dquote.

(** The last step of [rewriteHtml]: the script goes behind the head
    tag. *)
Definition inject_fix (html : string) : string :=
  if includes html "<head>"
  then replace html "<head>" ("<head>" ++ fixScript)
  else if includes html "<HEAD>"
  then replace html "<HEAD>" ("<HEAD>" ++ fixScript)
  else html.

(** The first replacement of [rewriteHtml], of [src] and [href]. *)
Definition rewrite_attrs (html baseUrl : string) : string :=
  replace_all true attr_re (rewrite_attr baseUrl) html.

(** The second replacement of [rewriteHtml], of [srcset]. *)
Definition rewrite_srcsets (html baseUrl : string) : string :=
  replace_all true srcset_re (rewrite_srcset baseUrl) html.

Definition rewriteHtml (html baseUrl : string) : string :=
  let html := rewrite_attrs html baseUrl in
  let html := rewrite_srcsets html baseUrl in
  inject_fix html.

(** The callback of [rewriteCss]. *)
Definition rewrite_url (baseUrl : string) (match_ : string)
  (groups : captures) : string :=
  let url := nth 0 groups "" in
  if startsWith url "data:" then match_
  else "url(" ++ chr dquote ++ proxyUrl url baseUrl ++ chr dquote ++ ")".

Definition rewriteCss (css baseUrl : string) : string :=
  replace_all true css_re (rewrite_url baseUrl) css.

(** *** The request handler *)

(** The [headers] of the upstream fetch. *)
Definition fetch_headers (request : Request) : Headers :=
  [ ("User-Agent",
     "Mozilla/5.0 (Windows NT 10.0; Win64; x64) AppleWebKit/537.36");
    ("Accept", or_else (get "Accept" (request_headers request)) "*/*");
    ("Accept-Language", "en-US,en;q=0.9") ].

Section Worker.

(** The runtime the handler calls: [new URL(u)], which gives the
    protocol and the host or throws; the global [fetch]; and
    [response.text()]. *)
Variable parse_URL : string -> result (string * string).
Variable global_fetch : string -> Headers -> result Response.
Variable read_text : Body -> result string.

(** The upstream fetches made so far: the target and the request
    headers of each. *)
Definition Trace : Type := list (string * Headers).

(** A computation that may throw and that records its fetches. *)
Definition M (A : Type) : Type := Trace -> result A * Trace.

Definition ret {A : Type} (a : A) : M A := fun t => (Ok a, t).

Definition bind {A B : Type} (m : M A) (k : A -> M B) : M B :=
  fun t =>
    match m t with
    | (Ok a, t') => k a t'
    | (Throw msg, t') => (Throw msg, t')
    end.

Definition lift {A : Type} (r : result A) : M A := fun t => (r, t).

Definition try_catch {A : Type} (m : M A) (handler : string -> M A)
  : M A :=
  fun t =>
    match m t with
    | (Ok a, t') => (Ok a, t')
    | (Throw msg, t') => handler msg t'
    end.

Definition await_fetch (target : string) (h : Headers) : M Response :=
  fun t => (global_fetch target h, (t ++ [(target, h)])%list).

Notation "x <- m ;; k" := (bind m (fun x => k))
  (at level 61, m at next level, right associativity).

(** The body of the [try] block. *)
Definition proxy_target (request : Request) (targetUrl : string)
  : M Response :=
  targetUrlObj <- lift (parse_URL targetUrl) ;;
  let baseUrl := fst targetUrlObj ++ "//" ++ snd targetUrlObj in
  response <- await_fetch targetUrl (fetch_headers request) ;;
  let contentType := or_else (get "content-type" (headers response)) "" in
  let newHeaders := cleanHeaders (headers response) in
  if includes contentType "text/html" then
    html <- lift (read_text (body response)) ;;
    lift (new_Response (Text (rewriteHtml html baseUrl))
            (status response) newHeaders)
  else if includes contentType "text/css" then
    css <- lift (read_text (body response)) ;;
    lift (new_Response (Text (rewriteCss css baseUrl))
            (status response) newHeaders)
  else
    lift (new_Response (body response) (status response) newHeaders).

(** [fetch(request)], the handler the worker exports.  The response of
    the preflight takes the default status, 200. *)
Definition fetch (request : Request) : M Response :=
  let targetUrl := searchParams_get "url" (searchParams request) in
  if String.eqb (method request) "OPTIONS" then
    lift (new_Response Null 200 corsHeaders)
  else
    match targetUrl with
    | None | Some "" =>
        lift (new_Response (Text "Missing url parameter") 400 corsHeaders)
    | Some targetUrl =>
        try_catch (proxy_target request targetUrl)
          (fun message =>
             lift (new_Response (Text ("Proxy error: " ++ message)) 500
                     corsHeaders))
    end.

End Worker.

End Proxy.

(** ** The vocabulary of the specification *)

Module Spec.
Import JS Proxy.

(** [s] begins with [p]. *)
Definition begins_with (p s : string) : Prop := exists t, s = p ++ t.

(** [s] contains [w]. *)
Definition occurs_in (w s : string) : Prop := exists a b, s = a ++ w ++ b.

(** The ProxiedURL with the query [q], the encoded absolute URL:
    [<proxy-base>/?url=q]. *)
Definition proxied (q : string) : string := PROXY_URL ++ "/?url=" ++ q.

Definition hex_value (c : ascii) : nat :=
  if between 48 57 c then nat_of_ascii c - 48
  else if between 65 70 c then nat_of_ascii c - 55
  else 0.

(** Percent-decoding: [%XY] stands for the byte of hexadecimal code XY. *)
Fixpoint percent_decode (s : string) : string :=
  match s with
  | "" => ""
  | String c s1 =>
      if Ascii.eqb c "%" then
        match s1 with
        | String x (String y s2) =>
            String (ascii_of_nat (16 * hex_value x + hex_value y))
              (percent_decode s2)
        | _ => String c (percent_decode s1)
        end
      else String c (percent_decode s1)
  end.

(** The characters of an encoded component: unreserved ones, and the
    percent sign with its hexadecimal digits. *)
Definition component_char (c : ascii) : bool :=
  unreserved c || Ascii.eqb c "%".

(** The two quote characters. *)
Definition is_quote (c : ascii) : bool :=
  Ascii.eqb c dquote || Ascii.eqb c squote.

(** A character that may stand in the argument of [url(...)]. *)
Definition is_url_char (c : ascii) : bool :=
  negb (is_quote c || Ascii.eqb c ")").

(** Nothing, or one quote character. *)
Definition optional_quote (q : string) : Prop :=
  q = "" \/ q = chr dquote \/ q = chr squote.

(** [tok] is the text of an attribute [attr=Qvalue Q], for [src] or [href]
    in any letter case, a value that is not empty and holds no quote, and a
    quote character on either side. *)
Definition attr_token (tok attr value : string) : Prop :=
  exists q1 q2,
    tok = attr ++ "=" ++ chr q1 ++ value ++ chr q2
    /\ (toLowerCase attr = "src" \/ toLowerCase attr = "href")
    /\ is_quote q1 = true /\ is_quote q2 = true
    /\ value <> "" /\ all_chars (fun c => negb (is_quote c)) value = true.

(** [tok] is the text of an attribute [srcset=Qvalue Q]. *)
Definition srcset_token (tok value : string) : Prop :=
  exists name q1 q2,
    tok = name ++ "=" ++ chr q1 ++ value ++ chr q2
    /\ toLowerCase name = "srcset"
    /\ is_quote q1 = true /\ is_quote q2 = true
    /\ value <> "" /\ all_chars (fun c => negb (is_quote c)) value = true.

(** [tok] is the text of a token [url(arg)], the name in any letter case
    and the argument, which is not empty and holds neither a quote nor a
    closing parenthesis, with or without a quote on either side. *)
Definition url_token (tok arg : string) : Prop :=
  exists name q1 q2,
    tok = name ++ "(" ++ q1 ++ arg ++ q2 ++ ")"
    /\ toLowerCase name = "url"
    /\ optional_quote q1 /\ optional_quote q2
    /\ arg <> "" /\ all_chars is_url_char arg = true.

(** The bytes a white-space character may begin with. *)
Definition ws_lead (c : ascii) : bool :=
  existsb (fun w => match w with
                    | "" => true
                    | String a _ => Ascii.eqb a c
                    end) ws_table.

(** A marking in which every byte marked plain begins no white space. *)
Inductive sound : list (ascii * bool) -> Prop :=
| sound_nil : sound []
| sound_ws c l : sound l -> sound ((c, true) :: l)
| sound_plain c l :
    ws_width (String c (unmark l)) = 0 -> sound l -> sound ((c, false) :: l).

(** A text no suffix of which begins with white space. *)
Inductive ws_free : string -> Prop :=
| ws_free_nil : ws_free ""
| ws_free_cons c s :
    ws_width (String c s) = 0 -> ws_free s -> ws_free (String c s).

(** The marking of a text without white space. *)
Fixpoint plain (s : string) : list (ascii * bool) :=
  match s with
  | "" => []
  | String c s' => (c, false) :: plain s'
  end.

(** The descriptor as it stands in a rewritten candidate. *)
Definition descriptor_suffix (size : option string) : string :=
  match size with
  | Some (String c d) => " " ++ String c d
  | _ => ""
  end.

(** The number of occurrences of [c] in [s]; with a comma, the comma-count
    of a [srcset]. *)
Fixpoint count_char (c : ascii) (s : string) : nat :=
  match s with
  | "" => 0
  | String d s' => (if Ascii.eqb d c then 1 else 0) + count_char c s'
  end.

(** Every byte of a marking satisfies [q]. *)
Definition marked_all (q : ascii -> bool) (l : list (ascii * bool)) : Prop :=
  Forall (fun cb => q (fst cb) = true) l.

(** [pre] is what stands before the first occurrence of [w] in [s]. *)
Definition first_occurrence (w pre s : string) : Prop :=
  (exists post, s = pre ++ w ++ post)
  /\ forall a b, s = a ++ w ++ b -> String.length pre <= String.length a.

(** The suffixes of a text. *)
Fixpoint tails (s : string) : list string :=
  s :: match s with
       | "" => []
       | String _ s' => tails s'
       end.

(** [c] is a character of [s]. *)
Definition char_in (c : ascii) (s : string) : bool :=
  negb (all_chars (fun d => negb (Ascii.eqb d c)) s).

(** The two spellings of the head tag that [rewriteHtml] looks for. *)
Definition head_tag (w : string) : Prop := w = "<head>" \/ w = "<HEAD>".

(** Any character but the opening angle bracket. *)
Definition not_lt (c : ascii) : bool := negb (Ascii.eqb c "<").

(** The headers that forbid framing. *)
Definition stripped : list string :=
  ["X-Frame-Options"; "Content-Security-Policy";
   "Content-Security-Policy-Report-Only"].

Definition is_stripped (name : string) : bool :=
  existsb (Http.same_name name) stripped.

(** A header set: no two of its entries have the same name, whatever the
    case of the letters. *)
Definition header_set (h : Http.Headers) : Prop :=
  NoDup (map (fun kv => toLowerCase (fst kv)) h).

(** The value of the last entry of [h] named [name], [init] without one. *)
Definition latest (name : string) (h : Http.Headers) (init : option string)
  : option string :=
  fold_left
    (fun o kv => if Http.same_name (fst kv) name then Some (snd kv) else o)
    h init.

(** The three headers of [corsHeaders()] are on a response. *)
Definition has_cors_headers (r : Http.Response) : Prop :=
  Http.get "Access-Control-Allow-Origin" (Http.headers r) = Some "*"
  /\ Http.get "Access-Control-Allow-Methods" (Http.headers r)
     = Some "GET, OPTIONS"
  /\ Http.get "Access-Control-Allow-Headers" (Http.headers r) = Some "*".

End Spec.

(** ** A sample runtime, for closed instances of the statements *)

Module Sample.
Import JS Http.

(** [new URL(u)] for the targets under [https://e.com]; any other text is
    rejected. *)
Definition parse_URL (u : string) : result (string * string) :=
  if startsWith u "https://e.com/" then Ok ("https:", "e.com")
  else Throw "Invalid URL".

(** [response.text()] of a body whose bytes are valid UTF-8. *)
Definition read_text (b : Body) : result string :=
  match b with
  | Null => Ok ""
  | Text s => Ok s
  | Stream s => Ok s
  end.

(** An upstream that answers every fetch with the response [r]. *)
Definition serve (r : Response) (target : string) (h : Headers)
  : result Response := Ok r.

(** An upstream that cannot be reached. *)
Definition unreachable (target : string) (h : Headers) : result Response :=
  Throw "Network connection lost.".

Definition GET (target : string) : Request :=
  mkRequest "GET" [("url", target)] [].

Definition OPTIONS (target : string) : Request :=
  mkRequest "OPTIONS" [("url", target)] [].

(** A page served with an upper-case content type. *)
Definition shouting_page : Response :=
  mkResponse 200 [("content-type", "TEXT/HTML; charset=utf-8")]
    (Stream "<a href='/next'>next</a>").

Definition png : Response :=
  mkResponse 200 [("content-type", "image/png")] (Stream "PNG").

End Sample.

(** ** The query of a request

    The handler reads its target from [new URL(request.url).searchParams].
    What follows is the part of the runtime that makes the parameters of a
    query.  The decoded bytes are taken for the text, which they are when
    they are well-formed UTF-8, as the bytes of a text that
    [encodeURIComponent] has encoded are. *)

Module Query.
Import JS.

Definition is_hex (c : ascii) : bool :=
  between 48 57 c || between 65 70 c || between 97 102 c.

Definition hex_digit_value (c : ascii) : nat :=
  if between 48 57 c then nat_of_ascii c - 48
  else if between 65 70 c then nat_of_ascii c - 55
  else nat_of_ascii c - 87.

(** The decoding of a name or a value of [url.searchParams]: a plus sign is
    a space, and a percent sign with two hexadecimal digits behind it is
    the byte of that code; any other percent sign stands for itself. *)
Fixpoint form_decode (s : string) : string :=
  match s with
  | "" => ""
  | String c s1 =>
      if Ascii.eqb c "+" then String " " (form_decode s1)
      else if Ascii.eqb c "%" then
        match s1 with
        | String x (String y s2) =>
            if is_hex x && is_hex y
            then String (ascii_of_nat (16 * hex_digit_value x + hex_digit_value y))
                   (form_decode s2)
            else String c (form_decode s1)
        | _ => String c (form_decode s1)
        end
      else String c (form_decode s1)
  end.

(** The text before the first [c], and the text behind it. *)
Fixpoint before (c : ascii) (s : string) : string :=
  match s with
  | "" => ""
  | String d s' => if Ascii.eqb d c then "" else String d (before c s')
  end.

Fixpoint behind (c : ascii) (s : string) : option string :=
  match s with
  | "" => None
  | String d s' => if Ascii.eqb d c then Some s' else behind c s'
  end.

(** One pair of a query: the name stands before the first equals sign. *)
Definition pair_of (part : string) : string * string :=
  (form_decode (before "=" part),
   form_decode match behind "=" part with
               | Some v => v
               | None => ""
               end).

(** [url.searchParams] of a URL whose query is [query]: the pairs stand
    between ampersands, and empty ones are passed over. *)
Definition searchParams_of (query : string) : list (string * string) :=
  map pair_of
    (filter (fun part => negb (String.eqb part "")) (split "&" query)).

End Query.

(** ** The front end

    The table of the projects and the channel arithmetic of
    [src/unnamed/part_002], and what [src/unnamed/part_004] shows of a
    project.

    A channel number is a number of the language, a double.  It is taken
    here for an integer, which it is on the channels, and the sums and
    differences are the exact ones: they are those of the language as long
    as the number is a safe integer, [Number.isSafeInteger]. *)

Module Frontend.
Import JS.

Record Project : Type := mkProject {
  id : Z;
  title : string;
  description : string;
  url : string;
  thumbnail : string;
  icon : string;
  color : string;
  screenshot : option string;
  useIcon : bool
}.

Definition PROJECTS : list Project :=
  [ mkProject 1 "Visacus"
      "My personal portfolio website showcasing projects and skills."
      "https://visacus.com"
      "linear-gradient(135deg, #f0f0f0 0%, #c0c0c0 30%, #808080 70%, #404040 100%)"
      (bytes [240; 159; 140; 144]) "#888" None false;
    mkProject 2 "XJSON"
      "GitHub project - Extended JSON parser and utilities library."
      "https://github.com/sharifli4/xjson"
      "linear-gradient(180deg, #e0e0e0 0%, #a0a0a0 40%, #606060 100%)"
      "{ }" "#999" None false;
    mkProject 3 "Clickbait Hider"
      "Browser extension to hide clickbait content from your feed."
      "https://github.com/sharifli4/clickbait-hider"
      "linear-gradient(45deg, #d0d0d0 0%, #909090 50%, #505050 100%)"
      (bytes [240; 159; 155; 161; 239; 184; 143]) "#aaa" None false;
    mkProject 4 "LinkedIn"
      "Connect with me on LinkedIn - Kanan Sharifli."
      "https://www.linkedin.com/in/kanan-sharifli/"
      "linear-gradient(160deg, #e8e8e8 0%, #b0b0b0 50%, #707070 100%)"
      "in" "#777" None true;
    mkProject 5 "X / Twitter"
      "Follow me on X - @sharifli4"
      "https://x.com/sharifli4"
      "linear-gradient(135deg, #e0e0e0 0%, #a8a8a8 40%, #686868 100%)"
      (bytes [240; 157; 149; 143]) "#888" None true ].

(** [getProject(channelNum)]; [None] for [null]. *)
Definition getProject (channelNum : Z) : option Project :=
  find (fun p => Z.eqb (id p) channelNum) PROJECTS.

Definition getTotalChannels : Z := Z.of_nat (List.length PROJECTS).

(** [Number.isSafeInteger(n)] of an integer: [n] and its two neighbours
    are doubles, and adding or taking away 1 is exact. *)
Definition safe_integer (n : Z) : Prop :=
  (- (2 ^ 53) < n < 2 ^ 53)%Z.

Definition getNextChannel (current : Z) : Z :=
  let max := getTotalChannels in
  if Z.geb current max then 1%Z else (current + 1)%Z.

Definition getPrevChannel (current : Z) : Z :=
  let max := getTotalChannels in
  if Z.leb current 1 then max else (current - 1)%Z.

(** What [loadPreview] leaves on the screen: nothing but the icon of the
    project, an image, or the frame with an address. *)
Inductive Preview : Type :=
| Hidden
| Screenshot (src : string)
| Live (src : string).

(** [loadPreview(project)], with the elements of the preview in the
    document.  A [screenshot] that is [null], missing or empty is falsy. *)
Definition loadPreview (project : Project) : Preview :=
  if useIcon project then Hidden
  else match screenshot project with
       | Some (String c s) => Screenshot (String c s)
       | _ =>
           let PROXY_URL := "https://tv-proxy.shariflii.workers.dev" in
           let proxyUrl :=
             PROXY_URL ++ "/?url=" ++ encodeURIComponent (url project) in
           Live proxyUrl
       end.

(** The address [updateDisplay] shows for a project. *)
Definition displayUrl (project : Project) : string :=
  replace (replace (replace (url project) "https://" "") "http://" "")
    "www." "".

End Frontend.

(** ** More vocabulary *)

Module Props.
Import JS Proxy.

(** The absolute URL that [proxyUrl] wraps. *)
Definition resolve (originalUrl baseUrl : string) : string :=
  if startsWith originalUrl "//" then "https:" ++ originalUrl
  else if startsWith originalUrl "/" then baseUrl ++ originalUrl
  else if startsWith originalUrl "http" then originalUrl
  else baseUrl ++ "/" ++ originalUrl.

(** A character that neither ends a quoted attribute nor opens or closes a
    tag, begins an entity or separates the candidates of a [srcset]. *)
Definition markup_safe (c : ascii) : bool :=
  negb (existsb (Ascii.eqb c) [dquote; "<"; ">"; "&"; " "; ","]%char).

(** The names of a header list, in lower case. *)
Definition names (h : Http.Headers) : list string :=
  map (fun kv => toLowerCase (fst kv)) h.

(** No header of [h] is one of those that forbid framing. *)
Definition unstripped (h : Http.Headers) : Prop :=
  forall kv, In kv h -> Spec.is_stripped (fst kv) = false.

End Props.

Import JS RegExp Http Proxy Spec.

(** ** Strings *)

Lemma append_nil_r (s : string) : s ++ "" = s.
Proof. induction s as [|c s IH]; simpl; [reflexivity | now rewrite IH]. Qed.

Lemma append_assoc (a b c : string) : (a ++ b) ++ c = a ++ (b ++ c).
Proof. induction a as [|x a IH]; simpl; [reflexivity | now rewrite IH]. Qed.

Lemma length_append (a b : string) :
  String.length (a ++ b) = String.length a + String.length b.
Proof. induction a as [|x a IH]; simpl; [reflexivity | now rewrite IH]. Qed.

Lemma prefix_append (p t : string) : prefix p (p ++ t) = true.
Proof.
  induction p as [|c p IH]; simpl; [now destruct t |].
  destruct (ascii_dec c c) as [_|n]; [exact IH | now elim n].
Qed.

Lemma prefix_begins (p s : string) : prefix p s = true <-> begins_with p s.
Proof.
  split.
  - revert s. induction p as [|c p IH]; intros s H.
    + now exists s.
    + destruct s as [|d s]; simpl in H; [discriminate |].
      destruct (ascii_dec c d) as [->|]; [| discriminate].
      destruct (IH _ H) as [t ->]. now exists t.
  - intros [t ->]. apply prefix_append.
Qed.

Lemma prefix_false_begins (p s : string) :
  prefix p s = false <-> ~ begins_with p s.
Proof.
  rewrite <- prefix_begins. destruct (prefix p s); split; intros H;
    try reflexivity; try discriminate; try (now elim H).
Qed.

Lemma drop_length_append (a b : string) : drop (String.length a) (a ++ b) = b.
Proof. induction a as [|x a IH]; simpl; [now destruct b | exact IH]. Qed.

Lemma take_length_append (a b : string) : take (String.length a) (a ++ b) = a.
Proof.
  induction a as [|x a IH]; simpl; [now destruct b | now rewrite IH].
Qed.

Lemma length_append_minus (a b : string) :
  String.length (a ++ b) - String.length b = String.length a.
Proof. rewrite length_append. lia. Qed.

(** A few values of the primitives: the escapes of [encodeURIComponent],
    among them those of the two bytes of a letter outside ASCII, and the
    white space of [trim] and of the class [\s], among it U+00A0. *)
Lemma encodeURIComponent_values :
  encodeURIComponent "https://e.com/a b?c=d&e#f" 
  = "https%3A%2F%2Fe.com%2Fa%20b%3Fc%3Dd%26e%23f"
  /\ encodeURIComponent "-_.!~*'()" = "-_.!~*'()"
  /\ encodeURIComponent (bytes [195; 169]) = "%C3%A9".
Proof. repeat split. Qed.

Lemma white_space_values :
  trim (bytes [194; 160; 9] ++ "a.png  2x" ++ bytes [10; 226; 128; 168])
  = "a.png  2x"
  /\ split_ws "a.png  2x" = ["a.png"; "2x"]
  /\ split_ws ("a.png" ++ bytes [194; 160] ++ "2x") = ["a.png"; "2x"]
  /\ split_ws "" = [""]
  /\ split "," "a,,b" = ["a"; ""; "b"].
Proof. repeat split. Qed.

(** ** The matcher *)

Lemma plus_sound {A : Type} (p : ascii -> bool) (s : string)
  (k : string -> option A) (x : A) :
  plus p s k = Some x ->
  exists m rest,
    s = m ++ rest /\ m <> "" /\ all_chars p m = true /\ k rest = Some x.
Proof.
  induction s as [|c s IH]; cbn; [discriminate |].
  destruct (p c) eqn:Hc; [| discriminate].
  destruct (plus p s k) as [y|] eqn:Hp.
  - intros [= ->]. destruct (IH eq_refl) as (m & rest & -> & _ & Hm & Hk).
    exists (String c m), rest. cbn. rewrite Hc.
    repeat split; trivial; discriminate.
  - intros Hk. exists (chr c), s. cbn. rewrite Hc.
    repeat split; trivial; discriminate.
Qed.

(** The longest run is tried first. *)
Lemma plus_longest {A : Type} (p : ascii -> bool) (m rest : string)
  (k : string -> option A) (x : A) :
  m <> "" -> all_chars p m = true ->
  (forall c rest', rest = String c rest' -> p c = false) ->
  k rest = Some x ->
  plus p (m ++ rest) k = Some x.
Proof.
  intros Hne Hm Hrest Hk.
  assert (Hstop : plus p rest k = None).
  { destruct rest as [|c rest']; [reflexivity |].
    cbn. now rewrite (Hrest c rest' eq_refl). }
  induction m as [|c m IH]; [now elim Hne |].
  cbn in Hm |- *. apply andb_true_iff in Hm. destruct Hm as [Hc Hm].
  rewrite Hc. destruct m as [|d m].
  - cbn. now rewrite Hstop.
  - rewrite IH; [reflexivity | discriminate | exact Hm].
Qed.

(** Whatever the matcher finds is a match of the pattern. *)
Lemma run_sound {A : Type} (i : bool) (r : regex) :
  forall (s : string) (c0 : captures)
         (k : string -> captures -> option A) (x : A),
    run i r s c0 k = Some x ->
    exists m rest c1,
      s = m ++ rest /\ matches i r m c0 c1 /\ k rest c1 = Some x.
Proof.
  induction r as [| p | cl | r1 IH1 r2 IH2 | r1 IH1 r2 IH2 | r1 IH1 | cl
                 | r1 IH1]; intros s c0 k x H; cbn in H.
  - exists "", s, c0. repeat split; [constructor | exact H].
  - destruct s as [|c s]; [discriminate |].
    destruct (chr_matches i p c) eqn:E; [| discriminate].
    exists (chr c), s, c0. repeat split; [now constructor | exact H].
  - destruct s as [|c s]; [discriminate |].
    destruct (cls_matches i cl c) eqn:E; [| discriminate].
    exists (chr c), s, c0. repeat split; [now constructor | exact H].
  - apply IH1 in H. destruct H as (m1 & rest1 & c1 & -> & H1 & H).
    apply IH2 in H. destruct H as (m2 & rest & c2 & -> & H2 & H).
    exists (m1 ++ m2), rest, c2. rewrite append_assoc.
    repeat split; [econstructor; eassumption | exact H].
  - destruct (run i r1 s c0 k) as [y|] eqn:E.
    + injection H as ->. apply IH1 in E.
      destruct E as (m & rest & c1 & -> & H1 & H).
      exists m, rest, c1. repeat split; [now apply M_Or_l | exact H].
    + apply IH2 in H. destruct H as (m & rest & c1 & -> & H2 & H).
      exists m, rest, c1. repeat split; [now apply M_Or_r | exact H].
  - destruct (run i r1 s c0 k) as [y|] eqn:E.
    + injection H as ->. apply IH1 in E.
      destruct E as (m & rest & c1 & -> & H1 & H).
      exists m, rest, c1. repeat split; [now apply M_Opt_some | exact H].
    + exists "", s, c0. repeat split; [apply M_Opt_none | exact H].
  - apply plus_sound in H. destruct H as (m & rest & -> & Hne & Hm & H).
    exists m, rest, c0. repeat split; [now constructor | exact H].
  - apply IH1 in H. destruct H as (m & rest & c1 & -> & H1 & H).
    rewrite length_append_minus, take_length_append in H.
    exists m, rest, (c1 ++ [m])%list.
    repeat split; [now constructor | exact H].
Qed.

Lemma exec_sound (i : bool) (r : regex) (s rest : string) (caps : captures) :
  exec i r s = Some (caps, rest) ->
  exists m, s = m ++ rest /\ matches i r m [] caps.
Proof.
  intros H. apply run_sound in H.
  destruct H as (m & rest' & c1 & -> & Hm & [= -> ->]). now exists m.
Qed.

(** *** Replacing every match *)

Lemma replace_from_skip (i : bool) (r : regex)
  (f : string -> captures -> string) (m rest : string) :
  replace_from i r f (String.length m) (m ++ rest)
  = replace_from i r f 0 rest.
Proof.
  induction m as [|c m IH]; [reflexivity | exact IH].
Qed.

Lemma replace_all_nil (i : bool) (r : regex)
  (f : string -> captures -> string) :
  exec i r "" = None -> replace_all i r f "" = "".
Proof. intros H. unfold replace_all. cbn. now rewrite H. Qed.

Lemma replace_all_copy (i : bool) (r : regex)
  (f : string -> captures -> string) (c : ascii) (s : string) :
  exec i r (String c s) = None ->
  replace_all i r f (String c s) = String c (replace_all i r f s).
Proof. intros H. unfold replace_all. cbn [replace_from]. now rewrite H. Qed.

Lemma replace_all_match (i : bool) (r : regex)
  (f : string -> captures -> string) (m rest : string) (caps : captures) :
  m <> "" ->
  exec i r (m ++ rest) = Some (caps, rest) ->
  replace_all i r f (m ++ rest) = f m caps ++ replace_all i r f rest.
Proof.
  intros Hne H. destruct m as [|c m]; [now elim Hne |].
  unfold replace_all. cbn [append replace_from].
  cbn [append] in H. rewrite H.
  change (String c (m ++ rest)) with (String c m ++ rest).
  rewrite length_append_minus. cbn [String.length].
  change (S (String.length m)) with (String.length (String c m)).
  rewrite take_length_append. cbn [String.length].
  now rewrite replace_from_skip.
Qed.

(** *** Characters *)

Lemma in_all_ascii (c : ascii) : In c all_ascii.
Proof.
  rewrite <- (ascii_nat_embedding c). apply in_map, in_seq.
  pose proof (nat_ascii_bounded c). lia.
Qed.

Lemma forall_ascii (P : ascii -> bool) :
  forallb P all_ascii = true -> forall c, P c = true.
Proof. intros H c. apply (proj1 (forallb_forall P all_ascii) H), in_all_ascii. Qed.

Lemma chr_matches_lower (p c : ascii) :
  chr_matches true p c = Ascii.eqb (lower_ascii p) (lower_ascii c).
Proof.
  revert c. revert p.
  assert (H : forallb (fun p => forallb (fun c =>
              Bool.eqb (chr_matches true p c)
                (Ascii.eqb (lower_ascii p) (lower_ascii c))) all_ascii)
              all_ascii = true) by (vm_compute; reflexivity).
  intros p c.
  apply Bool.eqb_prop.
  exact (forall_ascii _ (forall_ascii _ H p) c).
Qed.

Lemma cls_quotes (c : ascii) :
  cls_matches true (Only quotes) c = is_quote c.
Proof.
  apply Bool.eqb_prop. revert c. apply forall_ascii.
  vm_compute. reflexivity.
Qed.

Lemma cls_not_quotes (c : ascii) :
  cls_matches true (Except quotes) c = negb (is_quote c).
Proof.
  apply Bool.eqb_prop. revert c. apply forall_ascii.
  vm_compute. reflexivity.
Qed.

Lemma cls_url_char (c : ascii) :
  cls_matches true (Except (")"%char :: quotes)) c = is_url_char c.
Proof.
  apply Bool.eqb_prop. revert c. apply forall_ascii.
  vm_compute. reflexivity.
Qed.

Lemma all_chars_ext (p q : ascii -> bool) (s : string) :
  (forall c, p c = q c) -> all_chars p s = all_chars q s.
Proof.
  intros H. induction s as [|c s IH]; [reflexivity |].
  cbn. now rewrite H, IH.
Qed.

Lemma chr_matches_true (p c : ascii) :
  chr_matches true p c = true -> lower_ascii c = lower_ascii p.
Proof.
  rewrite chr_matches_lower. intros H. symmetry. now apply Ascii.eqb_eq.
Qed.

Lemma chr_matches_of_lower (p c : ascii) :
  lower_ascii c = lower_ascii p -> chr_matches true p c = true.
Proof.
  rewrite chr_matches_lower. intros ->. apply Ascii.eqb_refl.
Qed.

Lemma chr_matches_symbol (p c : ascii) :
  In p ["("; ")"; "="]%char -> chr_matches true p c = Ascii.eqb c p.
Proof.
  intros [<- | [<- | [<- | []]]]; apply Bool.eqb_prop; revert c;
    apply forall_ascii; vm_compute; reflexivity.
Qed.

Lemma opt_quote_inv (m : string) (c0 c1 : captures) :
  matches true (Opt (Cls (Only quotes))) m c0 c1 ->
  c1 = c0 /\ optional_quote m.
Proof.
  intros H. inversion H as [| | | | | | ? ? ? ? H1 | |  |]; subst.
  - inversion H1 as [| | ? c ? Hc | | | | | | |]; subst.
    split; [reflexivity |]. rewrite cls_quotes in Hc.
    unfold is_quote in Hc. apply orb_true_iff in Hc.
    destruct Hc as [Hc | Hc]; apply Ascii.eqb_eq in Hc; subst;
      [right; now left | right; now right].
  - split; [reflexivity | now left].
Qed.

Ltac invert_matches :=
  repeat match goal with
  | H : matches _ (Cat _ _) _ _ _ |- _ => inversion H; subst; clear H
  | H : matches _ (Chr _) _ _ _ |- _ => inversion H; subst; clear H
  | H : matches _ (Cls _) _ _ _ |- _ => inversion H; subst; clear H
  | H : matches _ Eps _ _ _ |- _ => inversion H; subst; clear H
  | H : matches _ (Grp _) _ _ _ |- _ => inversion H; subst; clear H
  | H : matches _ (Plus _) _ _ _ |- _ => inversion H; subst; clear H
  | H : matches _ (Or _ _) _ _ _ |- _ => inversion H; subst; clear H
  | H : matches _ (Opt (Cls (Only quotes))) _ _ _ |- _ =>
      apply opt_quote_inv in H; destruct H as [-> H]
  end.

Ltac lower_case :=
  cbn [toLowerCase append chr];
  repeat match goal with
  | H : lower_ascii _ = _ |- _ => rewrite H; clear H
  end;
  reflexivity.

Lemma url_token_intro (a b c : ascii) (q1 arg q2 : string) :
  toLowerCase (chr a ++ chr b ++ chr c) = "url" ->
  optional_quote q1 -> optional_quote q2 ->
  arg <> "" -> all_chars is_url_char arg = true ->
  url_token
    ((chr a ++ chr b ++ chr c ++ "") ++ chr "(" ++ q1 ++ arg ++ q2 ++ chr ")")
    arg.
Proof.
  intros. exists (chr a ++ chr b ++ chr c), q1, q2. now repeat split.
Qed.

Lemma css_matches_token (m : string) (caps : captures) :
  matches true css_re m [] caps -> exists arg, url_token m arg /\ caps = [arg].
Proof.
  intros H. unfold css_re in H. cbn [Str] in H. invert_matches.
  repeat match goal with
  | H : chr_matches true _ _ = true |- _ =>
      first [ rewrite chr_matches_symbol in H by (cbn; tauto);
              apply Ascii.eqb_eq in H; subst
            | apply chr_matches_true in H ]
  | H : all_chars (cls_matches true (Except (")"%char :: quotes))) _ = true
    |- _ => rewrite (all_chars_ext _ _ _ cls_url_char) in H
  end.
  eexists. split; [| reflexivity].
  apply url_token_intro; trivial. lower_case.
Qed.

Lemma optional_quote_cases (q : string) :
  optional_quote q -> q = "" \/ exists c, q = chr c /\ is_quote c = true.
Proof.
  intros [-> | [-> | ->]]; [now left | right | right]; eexists; now split.
Qed.

(** *** The matcher finds the tokens

    Each lemma takes one step of a pattern: when what follows succeeds with
    [x], so does the whole. *)

Lemma run_Str {A : Type} (lit name s : string) (c0 : captures)
  (k : string -> captures -> option A) :
  toLowerCase name = toLowerCase lit ->
  run true (Str lit) (name ++ s) c0 k = k s c0.
Proof.
  revert name. induction lit as [|p lit IH]; intros name H.
  - destruct name; [reflexivity | discriminate].
  - destruct name as [|a name]; [discriminate |].
    cbn in H. injection H as Ha H.
    cbn [Str run append]. rewrite (chr_matches_of_lower _ _ Ha).
    now apply IH.
Qed.

Lemma run_Str_mismatch {A : Type} (p a : ascii) (lit s : string)
  (c0 : captures) (k : string -> captures -> option A) :
  lower_ascii a <> lower_ascii p ->
  run true (Str (String p lit)) (String a s) c0 k = None.
Proof.
  intros H. cbn [Str run]. rewrite chr_matches_lower.
  destruct (Ascii.eqb_spec (lower_ascii p) (lower_ascii a)) as [E|];
    [now elim H | reflexivity].
Qed.

Section Steps.
Context {A : Type}.
Variable k : string -> captures -> option A.
Variable x : A.

Lemma step_Str (lit name s : string) (r : regex) (c0 : captures) :
  toLowerCase name = toLowerCase lit ->
  run true r s c0 k = Some x ->
  run true (Cat (Str lit) r) (name ++ s) c0 k = Some x.
Proof. intros H Hr. cbn [run]. now rewrite run_Str. Qed.

Lemma step_Chr (p c : ascii) (s : string) (r : regex) (c0 : captures) :
  chr_matches true p c = true ->
  run true r s c0 k = Some x ->
  run true (Cat (Chr p) r) (String c s) c0 k = Some x.
Proof. intros H Hr. cbn [run]. now rewrite H. Qed.

Lemma step_quote (q : ascii) (s : string) (r : regex) (c0 : captures) :
  is_quote q = true ->
  run true r s c0 k = Some x ->
  run true (Cat (Cls (Only quotes)) r) (String q s) c0 k = Some x.
Proof. intros H Hr. cbn [run]. now rewrite cls_quotes, H. Qed.

Lemma step_optional_quote (q s : string) (r : regex) (c0 : captures) :
  optional_quote q ->
  (q = "" -> forall c s', s = String c s' -> is_quote c = false) ->
  run true r s c0 k = Some x ->
  run true (Cat (Opt (Cls (Only quotes))) r) (q ++ s) c0 k = Some x.
Proof.
  intros Hq Hs Hr. cbn [run].
  destruct (optional_quote_cases _ Hq) as [-> | (d & -> & Hd)];
    cbn [append chr].
  - destruct s as [|c s']; [now rewrite Hr |].
    now rewrite cls_quotes, (Hs eq_refl c s' eq_refl), Hr.
  - now rewrite cls_quotes, Hd, Hr.
Qed.

Lemma step_group_plus (cl : cclass) (m s : string) (r : regex)
  (c0 : captures) :
  m <> "" -> all_chars (cls_matches true cl) m = true ->
  (forall c s', s = String c s' -> cls_matches true cl c = false) ->
  run true r s (c0 ++ [m])%list k = Some x ->
  run true (Cat (Grp (Plus cl)) r) (m ++ s) c0 k = Some x.
Proof.
  intros Hne Hm Hs Hr. cbn [run].
  apply plus_longest; trivial.
  now rewrite length_append_minus, take_length_append.
Qed.

Lemma last_Chr (p c : ascii) (s : string) (c0 : captures) :
  chr_matches true p c = true ->
  k s c0 = Some x ->
  run true (Chr p) (String c s) c0 k = Some x.
Proof. intros H Hr. cbn [run]. now rewrite H. Qed.

Lemma last_quote (q : ascii) (s : string) (c0 : captures) :
  is_quote q = true ->
  k s c0 = Some x ->
  run true (Cls (Only quotes)) (String q s) c0 k = Some x.
Proof. intros H Hr. cbn [run]. now rewrite cls_quotes, H. Qed.

Lemma last_optional_quote_Chr (p : ascii) (q s : string) (c0 : captures) :
  optional_quote q -> is_quote p = false ->
  k s c0 = Some x ->
  run true (Cat (Opt (Cls (Only quotes))) (Chr p)) (q ++ String p s) c0 k
  = Some x.
Proof.
  intros Hq Hp Hr. apply step_optional_quote; trivial.
  - intros _ c s' [= <- <-]. exact Hp.
  - apply last_Chr; trivial. rewrite chr_matches_lower. apply Ascii.eqb_refl.
Qed.

End Steps.

Lemma css_token_exec (tok arg rest : string) :
  url_token tok arg -> exec true css_re (tok ++ rest) = Some ([arg], rest).
Proof.
  intros (name & q1 & q2 & -> & Hname & Hq1 & Hq2 & Hne & Harg).
  unfold exec, css_re. rewrite !append_assoc.
  apply step_Str; [exact Hname |].
  apply step_Chr; [reflexivity |].
  apply step_optional_quote; [exact Hq1 | |].
  { intros _ c s' E. destruct arg as [|a arg]; [now elim Hne |].
    cbn in E, Harg. injection E as <- _.
    apply andb_true_iff in Harg. destruct Harg as [Ha _].
    unfold is_url_char in Ha. apply negb_true_iff, orb_false_iff in Ha.
    tauto. }
  apply step_group_plus; trivial.
  { now rewrite (all_chars_ext _ _ arg cls_url_char). }
  { intros c s' E. rewrite cls_url_char. unfold is_url_char.
    destruct (optional_quote_cases _ Hq2) as [-> | (d & -> & Hd)];
      cbn in E; injection E as <- _; [reflexivity | now rewrite Hd]. }
  now apply last_optional_quote_Chr.
Qed.

Lemma css_exec_token (s rest : string) (caps : captures) :
  exec true css_re s = Some (caps, rest) ->
  exists tok arg, s = tok ++ rest /\ url_token tok arg /\ caps = [arg].
Proof.
  intros H. apply exec_sound in H. destruct H as (m & -> & H).
  apply css_matches_token in H. destruct H as (arg & H & ->).
  now exists m, arg.
Qed.

Lemma toLowerCase_append (a b : string) :
  toLowerCase (a ++ b) = toLowerCase a ++ toLowerCase b.
Proof. induction a as [|c a IH]; cbn; [reflexivity | now rewrite IH]. Qed.

Lemma step_attr_name {A : Type} (k : string -> captures -> option A) (x : A)
  (attr s : string) (r : regex) (c0 : captures) :
  toLowerCase attr = "src" \/ toLowerCase attr = "href" ->
  run true r s (c0 ++ [attr])%list k = Some x ->
  run true (Cat (Grp (Or (Str "src") (Str "href"))) r) (attr ++ s) c0 k
  = Some x.
Proof.
  intros Hattr Hr. cbn [run].
  destruct Hattr as [H | H].
  - rewrite (run_Str "src"), length_append_minus, take_length_append by exact H.
    now rewrite Hr.
  - destruct attr as [|a attr]; [discriminate |].
    cbn [append]. rewrite run_Str_mismatch.
    + change (String a (attr ++ s)) with (String a attr ++ s).
      rewrite (run_Str "href"), length_append_minus, take_length_append
        by exact H.
      exact Hr.
    + cbn in H. injection H as -> _. discriminate.
Qed.

Lemma attr_token_exec (tok attr value rest : string) :
  attr_token tok attr value ->
  exec true attr_re (tok ++ rest) = Some ([attr; value], rest).
Proof.
  intros (q1 & q2 & -> & Hattr & Hq1 & Hq2 & Hne & Hv).
  unfold exec, attr_re. rewrite !append_assoc.
  apply step_attr_name; [exact Hattr |].
  apply step_Chr; [reflexivity |].
  apply step_quote; [exact Hq1 |].
  apply step_group_plus; trivial.
  { now rewrite (all_chars_ext _ _ value cls_not_quotes). }
  { intros c s' [= <- _]. now rewrite cls_not_quotes, Hq2. }
  now apply last_quote.
Qed.

Lemma attr_matches_token (m : string) (caps : captures) :
  matches true attr_re m [] caps ->
  exists attr value, attr_token m attr value /\ caps = [attr; value].
Proof.
  intros H. unfold attr_re in H. cbn [Str] in H. invert_matches;
  repeat match goal with
  | H : chr_matches true _ _ = true |- _ =>
      first [ rewrite chr_matches_symbol in H by (cbn; tauto);
              apply Ascii.eqb_eq in H; subst
            | apply chr_matches_true in H ]
  | H : cls_matches true (Only quotes) _ = true |- _ =>
      rewrite cls_quotes in H
  | H : all_chars (cls_matches true (Except quotes)) _ = true |- _ =>
      rewrite (all_chars_ext _ _ _ cls_not_quotes) in H
  end.
  all: eexists; eexists; (split; [| reflexivity]);
    eexists; eexists; rewrite ?append_assoc;
    (split; [reflexivity |]); repeat split; trivial.
  - left. lower_case.
  - right. lower_case.
Qed.

Lemma srcset_token_exec (tok value rest : string) :
  srcset_token tok value ->
  exec true srcset_re (tok ++ rest) = Some ([value], rest).
Proof.
  intros (name & q1 & q2 & -> & Hname & Hq1 & Hq2 & Hne & Hv).
  unfold exec, srcset_re. rewrite !append_assoc.
  rewrite <- (append_assoc name "=").
  apply step_Str; [now rewrite toLowerCase_append, Hname |].
  apply step_quote; [exact Hq1 |].
  apply step_group_plus; trivial.
  { now rewrite (all_chars_ext _ _ value cls_not_quotes). }
  { intros c s' [= <- _]. now rewrite cls_not_quotes, Hq2. }
  now apply last_quote.
Qed.

Lemma srcset_token_intro (a b c d e f q1 q2 : ascii) (v : string) :
  toLowerCase (chr a ++ chr b ++ chr c ++ chr d ++ chr e ++ chr f)
  = "srcset" ->
  is_quote q1 = true -> is_quote q2 = true ->
  v <> "" -> all_chars (fun c => negb (is_quote c)) v = true ->
  srcset_token
    ((chr a ++ chr b ++ chr c ++ chr d ++ chr e ++ chr f ++ chr "=" ++ "")
     ++ chr q1 ++ v ++ chr q2) v.
Proof. intros. exists (chr a ++ chr b ++ chr c ++ chr d ++ chr e ++ chr f), q1, q2. now repeat split. Qed.

Lemma srcset_matches_token (m : string) (caps : captures) :
  matches true srcset_re m [] caps ->
  exists value, srcset_token m value /\ caps = [value].
Proof.
  intros H. unfold srcset_re in H. cbn [Str] in H. invert_matches;
  repeat match goal with
  | H : chr_matches true _ _ = true |- _ =>
      first [ rewrite chr_matches_symbol in H by (cbn; tauto);
              apply Ascii.eqb_eq in H; subst
            | apply chr_matches_true in H ]
  | H : cls_matches true (Only quotes) _ = true |- _ =>
      rewrite cls_quotes in H
  | H : all_chars (cls_matches true (Except quotes)) _ = true |- _ =>
      rewrite (all_chars_ext _ _ _ cls_not_quotes) in H
  end.
  eexists; (split; [| reflexivity]).
  apply srcset_token_intro; trivial. lower_case.
Qed.

(** *** The three replacements, token by token *)

Section Scan.

Variable r : regex.
Variable f : string -> captures -> string.
Variable token : string -> captures -> Prop.

Hypothesis token_exec :
  forall tok caps rest,
    token tok caps -> exec true r (tok ++ rest) = Some (caps, rest).
Hypothesis exec_token :
  forall s caps rest,
    exec true r s = Some (caps, rest) ->
    exists tok, s = tok ++ rest /\ token tok caps.
Hypothesis token_not_empty : forall caps, ~ token "" caps.

Lemma scan_token (tok rest : string) (caps : captures) :
  token tok caps ->
  replace_all true r f (tok ++ rest) = f tok caps ++ replace_all true r f rest.
Proof.
  intros H. apply replace_all_match; [| now apply token_exec].
  intros ->. exact (token_not_empty _ H).
Qed.

Lemma scan_copy (c : ascii) (s : string) :
  (forall tok caps rest, token tok caps -> String c s <> tok ++ rest) ->
  replace_all true r f (String c s) = String c (replace_all true r f s).
Proof.
  intros H. apply replace_all_copy.
  destruct (exec true r (String c s)) as [[caps rest]|] eqn:E; [| reflexivity].
  apply exec_token in E. destruct E as (tok & E & Ht).
  now elim (H tok caps rest Ht).
Qed.

Lemma scan_nil : replace_all true r f "" = "".
Proof.
  apply replace_all_nil.
  destruct (exec true r "") as [[caps rest]|] eqn:E; [| reflexivity].
  apply exec_token in E. destruct E as (tok & E & Ht).
  destruct tok; [now elim (token_not_empty caps) | discriminate].
Qed.

End Scan.

Lemma attr_exec_token (s rest : string) (caps : captures) :
  exec true attr_re s = Some (caps, rest) ->
  exists tok,
    s = tok ++ rest
    /\ exists attr value, attr_token tok attr value /\ caps = [attr; value].
Proof.
  intros H. apply exec_sound in H. destruct H as (m & -> & H).
  exists m. split; [reflexivity | now apply attr_matches_token].
Qed.

Lemma srcset_exec_token (s rest : string) (caps : captures) :
  exec true srcset_re s = Some (caps, rest) ->
  exists tok,
    s = tok ++ rest /\ exists value, srcset_token tok value /\ caps = [value].
Proof.
  intros H. apply exec_sound in H. destruct H as (m & -> & H).
  exists m. split; [reflexivity | now apply srcset_matches_token].
Qed.

Lemma attr_token_not_empty (attr value : string) : ~ attr_token "" attr value.
Proof.
  intros (q1 & q2 & E & [H | H] & _); destruct attr; discriminate.
Qed.

Lemma srcset_token_not_empty (value : string) : ~ srcset_token "" value.
Proof. intros (name & q1 & q2 & E & H & _). destruct name; discriminate. Qed.

Lemma url_token_not_empty (arg : string) : ~ url_token "" arg.
Proof. intros (name & q1 & q2 & E & H & _). destruct name; discriminate. Qed.

(** ** The URL resolver *)

Lemma percent_decode_char (c : ascii) (s : string) :
  percent_decode ((if unreserved c then chr c else percent c) ++ s)
  = String c (percent_decode s).
Proof.
  destruct c as [[] [] [] [] [] [] [] []]; reflexivity.
Qed.

Lemma percent_decode_encode (s : string) :
  percent_decode (encodeURIComponent s) = s.
Proof.
  induction s as [|c s IH]; [reflexivity |].
  cbn [encodeURIComponent]. rewrite percent_decode_char. now rewrite IH.
Qed.

Lemma all_chars_append (p : ascii -> bool) (a b : string) :
  all_chars p (a ++ b) = all_chars p a && all_chars p b.
Proof.
  induction a as [|x a IH]; simpl; [reflexivity |].
  rewrite IH. now rewrite andb_assoc.
Qed.

Lemma encode_component_chars (s : string) :
  all_chars component_char (encodeURIComponent s) = true.
Proof.
  induction s as [|c s IH]; [reflexivity |].
  cbn [encodeURIComponent]. rewrite all_chars_append, IH, andb_true_r.
  destruct c as [[] [] [] [] [] [] [] []]; reflexivity.
Qed.

(** C1. The resolver applies its four cases in order -- a reference that
    begins with two slashes gets [https:] in front, one that begins with a
    slash gets the base origin in front, one that begins with [http] is
    taken as it is, any other is joined to the base origin by a slash -- and
    the result is the proxy endpoint with the absolute URL percent-encoded
    (decoding the query gives the absolute URL back) as its [url]
    parameter. *)
Theorem proxyUrl_resolution_policy (r b : string) :
  exists absolute : string,
    proxyUrl r b = proxied (encodeURIComponent absolute)
    /\ percent_decode (encodeURIComponent absolute) = absolute
    /\ all_chars component_char (encodeURIComponent absolute) = true
    /\ (begins_with "//" r -> absolute = "https:" ++ r)
    /\ (~ begins_with "//" r -> begins_with "/" r -> absolute = b ++ r)
    /\ (~ begins_with "/" r -> begins_with "http" r -> absolute = r)
    /\ (~ begins_with "/" r -> ~ begins_with "http" r ->
        absolute = b ++ "/" ++ r).
Proof.
  assert (Hslash : begins_with "//" r -> begins_with "/" r).
  { intros [t ->]. now exists ("/" ++ t). }
  unfold proxyUrl, startsWith.
  destruct (prefix "//" r) eqn:H2;
    [| destruct (prefix "/" r) eqn:H1; [| destruct (prefix "http" r) eqn:Hh]];
    eexists; (split; [reflexivity |]);
    (split; [apply percent_decode_encode |]);
    (split; [apply encode_component_chars |]);
    rewrite ?prefix_begins, ?prefix_false_begins in *;
    repeat split; intros; try reflexivity; try contradiction;
    exfalso; auto.
Qed.

(** ** White space *)

Lemma prefix_nil (s : string) : prefix "" s = true.
Proof. now destruct s. Qed.

Lemma prefix_trans (a b c : string) :
  prefix a b = true -> prefix b c = true -> prefix a c = true.
Proof.
  rewrite !prefix_begins. intros [t ->] [u ->].
  exists (t ++ u). now rewrite append_assoc.
Qed.

Lemma ws_table_not_empty : forallb (fun w => negb (String.eqb w "")) ws_table = true.
Proof. vm_compute. reflexivity. Qed.

Lemma ws_width_zero (s : string) :
  ws_width s = 0 <-> forall w, In w ws_table -> prefix w s = false.
Proof.
  unfold ws_width. split.
  - destruct (find _ ws_table) as [w|] eqn:E.
    + apply find_some in E. destruct E as [Hin _].
      pose proof (proj1 (forallb_forall _ _) ws_table_not_empty w Hin) as Hw.
      destruct w; [discriminate | discriminate].
    + intros _ w Hin. exact (find_none _ _ E w Hin).
  - intros H. destruct (find _ ws_table) as [w|] eqn:E; [| reflexivity].
    apply find_some in E. destruct E as [Hin Hp].
    rewrite (H w Hin) in Hp. discriminate.
Qed.

(** Cutting a text short makes no white space appear at its head. *)
Lemma ws_width_prefix (t s : string) :
  prefix t s = true -> ws_width s = 0 -> ws_width t = 0.
Proof.
  rewrite !ws_width_zero. intros Hp H w Hin.
  destruct (prefix w t) eqn:E; [| reflexivity].
  rewrite <- (H w Hin). symmetry. now apply (prefix_trans w t s).
Qed.

Lemma ws_width_lead (c : ascii) (s : string) :
  ws_lead c = false -> ws_width (String c s) = 0.
Proof.
  unfold ws_lead. intros H. apply ws_width_zero. intros w Hin.
  destruct w as [|a w].
  - assert (E : existsb (fun w => match w with "" => true | String a _ => Ascii.eqb a c end) ws_table = true).
    { apply existsb_exists. now exists "". }
    congruence.
  - cbn. destruct (ascii_dec a c) as [->|]; [| reflexivity].
    assert (E : existsb (fun w => match w with "" => true | String a _ => Ascii.eqb a c end) ws_table = true).
    { apply existsb_exists. exists (String c w). split; [exact Hin |].
      apply Ascii.eqb_refl. }
    congruence.
Qed.

Lemma unmark_cons (c : ascii) (b : bool) (l : list (ascii * bool)) :
  unmark ((c, b) :: l) = String c (unmark l).
Proof. reflexivity. Qed.

Lemma unmark_mark_from (k : nat) (s : string) : unmark (mark_from k s) = s.
Proof.
  revert k. induction s as [|c s IH]; intros k; [reflexivity |].
  cbn [mark_from]. destruct k as [|k].
  - destruct (ws_width (String c s)); rewrite unmark_cons, IH; reflexivity.
  - now rewrite unmark_cons, IH.
Qed.

Lemma mark_from_sound (k : nat) (s : string) : sound (mark_from k s).
Proof.
  revert k. induction s as [|c s IH]; intros k; [constructor |].
  cbn [mark_from]. destruct k as [|k]; [| now constructor].
  destruct (ws_width (String c s)) eqn:E; [| now constructor].
  constructor; [now rewrite unmark_mark_from | apply IH].
Qed.

Lemma fields_not_nil (l : list (ascii * bool)) : fields l <> [].
Proof.
  induction l as [|[c [|]] l IH]; cbn [fields]; [discriminate | |].
  - destruct l as [|[d [|]] l']; [discriminate | exact IH | discriminate].
  - destruct (fields l); discriminate.
Qed.

Lemma fields_ws_head (c : ascii) (l : list (ascii * bool)) :
  hd "" (fields ((c, true) :: l)) = "".
Proof.
  revert c. induction l as [|[d [|]] l IH]; intros c; [reflexivity | |
    reflexivity].
  cbn [fields] in *. exact (IH d).
Qed.

Lemma fields_head_prefix (l : list (ascii * bool)) :
  prefix (hd "" (fields l)) (unmark l) = true.
Proof.
  induction l as [|[c [|]] l IH]; [reflexivity | |].
  - now rewrite fields_ws_head.
  - cbn [fields]. destruct (fields l) as [|w ws] eqn:E.
    + now elim (fields_not_nil l).
    + cbn [hd] in *. rewrite unmark_cons. cbn.
      destruct (ascii_dec c c) as [_|n]; [exact IH | now elim n].
Qed.

(** The fields of a sound marking begin no white space anywhere. *)
Lemma fields_ws_free (l : list (ascii * bool)) :
  sound l -> Forall ws_free (fields l).
Proof.
  induction 1 as [| c l Hs IH | c l Hw Hs IH].
  - repeat constructor.
  - cbn [fields]. destruct l as [|[d [|]] l']; trivial;
      constructor; trivial; constructor.
  - pose proof (fields_head_prefix l) as Hp.
    cbn [fields]. destruct (fields l) as [|w ws] eqn:E.
    + now elim (fields_not_nil l).
    + cbn [hd] in Hp. inversion IH as [|? ? Hfw Hfws]; subst.
      constructor; [| exact Hfws].
      constructor; [| exact Hfw].
      apply (ws_width_prefix _ (String c (unmark l))); [| exact Hw].
      cbn. destruct (ascii_dec c c) as [_|n]; [exact Hp | now elim n].
Qed.

Lemma split_ws_ws_free (s : string) : Forall ws_free (split_ws s).
Proof. apply fields_ws_free, mark_from_sound. Qed.

Lemma unmark_plain (s : string) : unmark (plain s) = s.
Proof. induction s as [|c s IH]; [reflexivity |]. now rewrite <- IH at 2. Qed.

Lemma unmark_app (l1 l2 : list (ascii * bool)) :
  unmark (l1 ++ l2) = unmark l1 ++ unmark l2.
Proof.
  induction l1 as [|[c b] l1 IH]; [reflexivity |].
  cbn [app]. rewrite !unmark_cons, IH. reflexivity.
Qed.

Lemma mark_ws_free (s : string) : ws_free s -> mark_from 0 s = plain s.
Proof.
  induction 1 as [| c s Hw Hs IH]; [reflexivity |].
  cbn [mark_from plain]. now rewrite Hw, IH.
Qed.

Lemma mark_lead_prefix (p s : string) :
  all_chars (fun c => negb (ws_lead c)) p = true ->
  mark_from 0 (p ++ s) = (plain p ++ mark_from 0 s)%list.
Proof.
  induction p as [|c p IH]; [reflexivity |].
  cbn [all_chars append]. intros H. apply andb_true_iff in H.
  destruct H as [Hc Hp]. apply negb_true_iff in Hc.
  cbn [mark_from plain app]. now rewrite (ws_width_lead _ _ Hc), IH.
Qed.

Lemma mark_space (s : string) :
  mark_from 0 (String " " s) = (" "%char, true) :: mark_from 0 s.
Proof.
  cbn [mark_from].
  assert (H : ws_width (String " " s) = 1).
  { unfold ws_width. cbn. now rewrite prefix_nil. }
  now rewrite H.
Qed.

Lemma drop_ws_plain (p : string) (l : list (ascii * bool)) :
  p <> "" -> drop_ws (plain p ++ l) = (plain p ++ l)%list.
Proof. destruct p; [intros H; now elim H | reflexivity]. Qed.

Lemma drop_end_plain (l : list (ascii * bool)) (c : ascii) :
  rev (drop_ws (rev (l ++ [(c, false)]))) = (l ++ [(c, false)])%list.
Proof.
  rewrite rev_app_distr. cbn [rev app drop_ws]. now rewrite rev_involutive.
Qed.

Lemma drop_end_ws (l : list (ascii * bool)) (c : ascii) :
  rev (drop_ws (rev (l ++ [(c, true)]))) = rev (drop_ws (rev l)).
Proof. rewrite rev_app_distr. reflexivity. Qed.

Lemma plain_last (p : string) :
  p <> "" -> exists l c, plain p = (l ++ [(c, false)])%list.
Proof.
  induction p as [|c p IH]; [intros H; now elim H |]. intros _.
  destruct p as [|d p].
  - now exists [], c.
  - destruct (IH ltac:(discriminate)) as (l & e & E).
    exists ((c, false) :: l), e. cbn [plain] in *. now rewrite E.
Qed.

Lemma drop_end_all_plain (p : string) :
  rev (drop_ws (rev (plain p))) = plain p.
Proof.
  destruct p as [|c p]; [reflexivity |].
  destruct (plain_last (String c p)) as (l & e & ->); [discriminate |].
  apply drop_end_plain.
Qed.

Lemma trim_with_descriptor (p d : string) :
  all_chars (fun c => negb (ws_lead c)) p = true -> p <> "" ->
  ws_free d -> d <> "" ->
  trim (p ++ " " ++ d) = p ++ " " ++ d.
Proof.
  intros Hp Hne Hd Hdne. unfold trim, mark.
  rewrite (mark_lead_prefix _ _ Hp). cbn [append].
  rewrite mark_space, (mark_ws_free _ Hd).
  rewrite (drop_ws_plain _ _ Hne).
  destruct (plain_last d Hdne) as (l & e & E).
  assert (E' : (plain p ++ (" "%char, true) :: plain d)%list
               = ((plain p ++ (" "%char, true) :: l) ++ [(e, false)])%list).
  { rewrite E, <- app_assoc. reflexivity. }
  rewrite E', drop_end_plain, <- E'.
  rewrite unmark_app, unmark_cons, !unmark_plain. reflexivity.
Qed.

Lemma trim_without_descriptor (p : string) :
  all_chars (fun c => negb (ws_lead c)) p = true -> p <> "" ->
  trim (p ++ " " ++ "") = p.
Proof.
  intros Hp Hne. unfold trim, mark.
  rewrite (mark_lead_prefix _ _ Hp). cbn [append].
  rewrite mark_space. cbn [mark_from].
  rewrite (drop_ws_plain _ _ Hne), drop_end_ws, drop_end_all_plain.
  apply unmark_plain.
Qed.

(** ** The candidates of a srcset *)

Lemma all_chars_impl (p q : ascii -> bool) (s : string) :
  (forall c, p c = true -> q c = true) ->
  all_chars p s = true -> all_chars q s = true.
Proof.
  intros H. induction s as [|c s IH]; [reflexivity |].
  cbn. rewrite !andb_true_iff. intros [Hc Hs]. split; auto.
Qed.

Lemma component_char_not_ws (c : ascii) :
  component_char c = true -> negb (ws_lead c) = true.
Proof.
  assert (H : forall c, implb (component_char c) (negb (ws_lead c)) = true).
  { apply forall_ascii. vm_compute. reflexivity. }
  specialize (H c). destruct (component_char c); [exact (fun _ => H) | discriminate].
Qed.

Lemma component_char_not_comma (c : ascii) :
  component_char c = true -> negb (Ascii.eqb c ",") = true.
Proof.
  assert (H : forall c, implb (component_char c) (negb (Ascii.eqb c ",")) = true).
  { apply forall_ascii. vm_compute. reflexivity. }
  specialize (H c). destruct (component_char c); [exact (fun _ => H) | discriminate].
Qed.

Lemma proxyUrl_chars (q : ascii -> bool) (url b : string) :
  all_chars q (PROXY_URL ++ "/?url=") = true ->
  (forall c, component_char c = true -> q c = true) ->
  all_chars q (proxyUrl url b) = true.
Proof.
  intros Hlit Hq. unfold proxyUrl.
  rewrite <- append_assoc, all_chars_append, Hlit. cbn [andb].
  apply (all_chars_impl component_char); [exact Hq |].
  apply encode_component_chars.
Qed.

Lemma proxyUrl_not_empty (url b : string) : proxyUrl url b <> "".
Proof. unfold proxyUrl. discriminate. Qed.

Lemma rewrite_candidate_shape (b part : string) :
  rewrite_candidate b part
  = proxyUrl (hd "" (split_ws (trim part))) b
    ++ descriptor_suffix (nth_error (split_ws (trim part)) 1).
Proof.
  unfold rewrite_candidate.
  set (tokens := split_ws (trim part)).
  set (p := proxyUrl (hd "" tokens) b).
  assert (Hp : all_chars (fun c => negb (ws_lead c)) p = true).
  { apply proxyUrl_chars; [vm_compute; reflexivity |].
    apply component_char_not_ws. }
  assert (Hne : p <> "") by apply proxyUrl_not_empty.
  destruct (nth_error tokens 1) as [[|c d]|] eqn:E; cbn [or_else descriptor_suffix].
  - rewrite (append_nil_r p). now apply trim_without_descriptor.
  - apply trim_with_descriptor; trivial; [| discriminate].
    apply nth_error_In in E.
    exact (proj1 (Forall_forall _ _) (split_ws_ws_free _) _ E).
  - rewrite (append_nil_r p). now apply trim_without_descriptor.
Qed.

Lemma count_char_append (c : ascii) (a b : string) :
  count_char c (a ++ b) = count_char c a + count_char c b.
Proof. induction a as [|d a IH]; cbn; [reflexivity | rewrite IH; lia]. Qed.

Lemma count_char_none (c : ascii) (s : string) :
  all_chars (fun d => negb (Ascii.eqb d c)) s = true -> count_char c s = 0.
Proof.
  induction s as [|d s IH]; [reflexivity |]. cbn.
  rewrite andb_true_iff, negb_true_iff. intros [-> Hs]. now rewrite IH.
Qed.

Lemma split_not_nil (sep : ascii) (s : string) : split sep s <> [].
Proof.
  induction s as [|c s IH]; cbn; [discriminate |].
  destruct (Ascii.eqb c sep); [discriminate |].
  destruct (split sep s); discriminate.
Qed.

Lemma count_char_split (sep : ascii) (s : string) :
  List.length (split sep s) = count_char sep s + 1.
Proof.
  induction s as [|c s IH]; [reflexivity |]. cbn.
  destruct (Ascii.eqb c sep); cbn; [now rewrite IH |].
  destruct (split sep s) as [|w ws] eqn:E; [now elim (split_not_nil sep s) |].
  exact IH.
Qed.

Lemma count_comma_join (l : list string) :
  Forall (fun x => count_char "," x = 0) l ->
  count_char "," (join ", " l) + 1 = Nat.max 1 (List.length l).
Proof.
  induction 1 as [|x l Hx Hl IH]; [reflexivity |].
  unfold join in *. cbn [String.concat]. destruct l as [|y l].
  - cbn. lia.
  - rewrite !count_char_append, Hx.
    change (count_char "," ", ") with 1.
    cbn [List.length] in *. lia.
Qed.

Lemma marked_all_unmark (q : ascii -> bool) (l : list (ascii * bool)) :
  marked_all q l <-> all_chars q (unmark l) = true.
Proof.
  induction l as [|[c b] l IH].
  - split; [reflexivity | constructor].
  - rewrite unmark_cons. cbn [all_chars]. rewrite andb_true_iff, <- IH.
    split.
    + intros H. inversion H; subst. now split.
    + intros [Hc Hl]. now constructor.
Qed.

Lemma marked_all_mark (q : ascii -> bool) (s : string) :
  all_chars q s = true -> marked_all q (mark s).
Proof. intros H. apply marked_all_unmark. unfold mark. now rewrite unmark_mark_from. Qed.

Lemma marked_all_drop_ws (q : ascii -> bool) (l : list (ascii * bool)) :
  marked_all q l -> marked_all q (drop_ws l).
Proof.
  induction 1 as [|[c [|]] l Hc Hl IH]; cbn [drop_ws];
    [constructor | exact IH | now constructor].
Qed.

Lemma trim_chars (q : ascii -> bool) (s : string) :
  all_chars q s = true -> all_chars q (trim s) = true.
Proof.
  intros H. unfold trim. apply marked_all_unmark.
  apply Forall_rev, marked_all_drop_ws, Forall_rev, marked_all_drop_ws.
  now apply marked_all_mark.
Qed.

Lemma fields_chars (q : ascii -> bool) (l : list (ascii * bool)) :
  marked_all q l -> Forall (fun t => all_chars q t = true) (fields l).
Proof.
  induction 1 as [|[c [|]] l Hc Hl IH]; cbn [fields].
  - now repeat constructor.
  - destruct l as [|[d [|]] l']; trivial; now constructor.
  - cbn [fst] in Hc. destruct (fields l) as [|w ws].
    + constructor; [cbn; now rewrite Hc | constructor].
    + inversion IH; subst. constructor; trivial.
      cbn [all_chars]. now rewrite Hc.
Qed.

Lemma split_ws_chars (q : ascii -> bool) (s : string) :
  all_chars q s = true -> Forall (fun t => all_chars q t = true) (split_ws s).
Proof. intros H. now apply fields_chars, marked_all_mark. Qed.

Lemma split_chars (sep : ascii) (s : string) :
  Forall (fun t => all_chars (fun c => negb (Ascii.eqb c sep)) t = true)
    (split sep s).
Proof.
  induction s as [|c s IH]; cbn [split]; [now repeat constructor |].
  destruct (Ascii.eqb c sep) eqn:E; [now constructor |].
  destruct (split sep s) as [|w ws];
    [constructor; [cbn; now rewrite E | constructor] |].
  inversion IH; subst. constructor; trivial.
  cbn [all_chars]. now rewrite E.
Qed.

Lemma rewrite_candidate_chars (q : ascii -> bool) (b part : string) :
  all_chars q (PROXY_URL ++ "/?url=") = true ->
  (forall c, component_char c = true -> q c = true) ->
  q " "%char = true ->
  all_chars q part = true ->
  all_chars q (rewrite_candidate b part) = true.
Proof.
  intros Hlit Hq Hsp Hpart. rewrite rewrite_candidate_shape.
  rewrite all_chars_append. rewrite proxyUrl_chars by assumption.
  cbn [andb].
  destruct (nth_error _ 1) as [[|c d]|] eqn:E; trivial.
  cbn [descriptor_suffix append all_chars]. rewrite Hsp. cbn [andb].
  apply nth_error_In in E.
  exact (proj1 (Forall_forall _ _)
           (split_ws_chars q _ (trim_chars q _ Hpart)) _ E).
Qed.

Lemma rewritten_srcset_commas (b value : string) :
  count_char "," (join ", " (map (rewrite_candidate b) (split "," value)))
  = count_char "," value.
Proof.
  pose proof (count_comma_join (map (rewrite_candidate b) (split "," value)))
    as H.
  rewrite length_map, count_char_split in H.
  assert (Hc : Forall (fun x => count_char "," x = 0)
                 (map (rewrite_candidate b) (split "," value))).
  { apply Forall_map. apply (Forall_impl _ (P := fun t => all_chars (fun c => negb (Ascii.eqb c ",")) t = true));
      [| apply split_chars].
    intros part Hpart. apply count_char_none.
    apply rewrite_candidate_chars; trivial.
    apply component_char_not_comma. }
  specialize (H Hc). lia.
Qed.

(** ** The CSS rewriter *)

Lemma rewriteCss_token (tok arg rest b : string) :
  url_token tok arg ->
  rewriteCss (tok ++ rest) b = rewrite_url b tok [arg] ++ rewriteCss rest b.
Proof.
  intros H. unfold rewriteCss.
  apply (scan_token css_re (rewrite_url b)
           (fun tok caps => exists arg, url_token tok arg /\ caps = [arg])).
  - intros tok' caps rest' (arg' & Ht & ->). now apply css_token_exec.
  - intros caps (arg' & Ht & _). exact (url_token_not_empty _ Ht).
  - now exists arg.
Qed.

Lemma rewriteCss_copy (c : ascii) (s b : string) :
  (forall tok arg rest, url_token tok arg -> String c s <> tok ++ rest) ->
  rewriteCss (String c s) b = String c (rewriteCss s b).
Proof.
  intros H. unfold rewriteCss.
  apply (scan_copy css_re (rewrite_url b)
           (fun tok caps => exists arg, url_token tok arg /\ caps = [arg])).
  - intros s' caps rest E. apply css_exec_token in E.
    destruct E as (tok & arg & -> & Ht & ->). exists tok.
    split; [reflexivity | now exists arg].
  - intros tok caps rest (arg & Ht & _). now apply (H tok arg rest).
Qed.

(** C5, amended.  The CSS rewriter goes through the text from the left.
    Where a token [url(arg)] starts as the pattern takes it -- the name in
    any letter case, the argument not empty and without a quote or a closing
    parenthesis, bare or with a quote character directly on either side --
    and its argument does not begin with [data:],
    the token becomes [url(Q proxied Q)], with the argument resolved by
    [proxyUrl] and double quotes Q around it; where no token starts, the
    character is copied.  On [background:url(/bg.png)] with the base
    [https://e.com] this gives the text of the specification. *)
Theorem rewriteCss_rewrites_tokens :
  (forall tok arg rest b,
      url_token tok arg -> startsWith arg "data:" = false ->
      rewriteCss (tok ++ rest) b
      = "url(" ++ chr dquote ++ proxyUrl arg b ++ chr dquote ++ ")"
        ++ rewriteCss rest b)
  /\ (forall c s b,
        (forall tok arg rest, url_token tok arg -> String c s <> tok ++ rest) ->
        rewriteCss (String c s) b = String c (rewriteCss s b))
  /\ (forall b, rewriteCss "" b = "")
  /\ rewriteCss "background:url(/bg.png)" "https://e.com"
     = "background:url(" ++ chr dquote ++ PROXY_URL
       ++ "/?url=https%3A%2F%2Fe.com%2Fbg.png" ++ chr dquote ++ ")".
Proof.
  repeat split.
  - intros tok arg rest b Ht Hd. rewrite (rewriteCss_token _ _ _ _ Ht).
    unfold rewrite_url. cbn [nth]. rewrite Hd.
    now rewrite !append_assoc.
  - intros c s b H. now apply rewriteCss_copy.
Qed.

(** ** The HTML rewriter *)

Lemma rewrite_attrs_token (tok attr value rest b : string) :
  attr_token tok attr value ->
  rewrite_attrs (tok ++ rest) b
  = rewrite_attr b tok [attr; value] ++ rewrite_attrs rest b.
Proof.
  intros H. unfold rewrite_attrs.
  apply (scan_token attr_re (rewrite_attr b)
           (fun tok caps =>
              exists attr value,
                attr_token tok attr value /\ caps = [attr; value])).
  - intros tok' caps rest' (attr' & value' & Ht & ->).
    now apply attr_token_exec.
  - intros caps (attr' & value' & Ht & _).
    exact (attr_token_not_empty _ _ Ht).
  - now exists attr, value.
Qed.

Lemma rewrite_srcsets_token (tok value rest b : string) :
  srcset_token tok value ->
  rewrite_srcsets (tok ++ rest) b
  = rewrite_srcset b tok [value] ++ rewrite_srcsets rest b.
Proof.
  intros H. unfold rewrite_srcsets.
  apply (scan_token srcset_re (rewrite_srcset b)
           (fun tok caps => exists value, srcset_token tok value /\ caps = [value])).
  - intros tok' caps rest' (value' & Ht & ->). now apply srcset_token_exec.
  - intros caps (value' & Ht & _). exact (srcset_token_not_empty _ Ht).
  - now exists value.
Qed.

(** C4, amended.  The replacement of [src] and [href] leaves an attribute
    as the pattern takes it -- the name, the equals sign, a quote, a value
    that runs to the next quote character of either kind, and that quote --
    as it is when the value begins with [data:], [javascript:] or [#]; and
    the CSS rewriter leaves a token [url(...)] as its pattern takes it, the
    argument holding neither a quote nor a closing parenthesis, as it is
    when the argument begins with [data:]. *)
Theorem guarded_references_unchanged :
  (forall tok attr value rest b,
      attr_token tok attr value ->
      begins_with "data:" value \/ begins_with "javascript:" value
      \/ begins_with "#" value ->
      rewrite_attrs (tok ++ rest) b = tok ++ rewrite_attrs rest b)
  /\ (forall tok arg rest b,
        url_token tok arg -> begins_with "data:" arg ->
        rewriteCss (tok ++ rest) b = tok ++ rewriteCss rest b).
Proof.
  split.
  - intros tok attr value rest b Ht Hg.
    rewrite (rewrite_attrs_token _ _ _ _ _ Ht). f_equal.
    unfold rewrite_attr, startsWith. cbn [nth].
    rewrite <- !prefix_begins in Hg.
    destruct Hg as [-> | [-> | ->]]; rewrite ?orb_true_r; reflexivity.
  - intros tok arg rest b Ht Hg. rewrite (rewriteCss_token _ _ _ _ Ht).
    f_equal. unfold rewrite_url, startsWith. cbn [nth].
    apply prefix_begins in Hg. now rewrite Hg.
Qed.


(** *** The head tag *)

Lemma includes_occurs (s p : string) :
  includes s p = true <-> occurs_in p s.
Proof.
  split.
  - induction s as [|c s IH]; cbn [includes].
    + intros H. apply prefix_begins in H. destruct H as [t H].
      exists "", t. exact H.
    + intros H. apply orb_true_iff in H. destruct H as [H | H].
      * apply prefix_begins in H. destruct H as [t H]. now exists "", t.
      * destruct (IH H) as (a & b & ->). now exists (String c a), b.
  - intros (a & b & ->). induction a as [|c a IH].
    + cbn [append]. destruct (p ++ b) eqn:E.
      * cbn [includes]. rewrite <- E. apply prefix_append.
      * cbn [includes]. rewrite <- E, prefix_append. reflexivity.
    + cbn [append includes]. rewrite IH. apply orb_true_r.
Qed.

(** The two replacements of [inject_fix] hold no dollar sign, which
    [replace] would read as a reference to the match. *)
Lemma injected_text_is_literal :
  char_in "$" ("<head>" ++ fixScript) = false
  /\ char_in "$" ("<HEAD>" ++ fixScript) = false.
Proof. split; reflexivity. Qed.

(** [replace] puts [r] where the first occurrence of [p] stood. *)
Lemma replace_first (s p r : string) :
  includes s p = true ->
  exists pre post,
    s = pre ++ p ++ post
    /\ first_occurrence p pre s
    /\ replace s p r = pre ++ r ++ post.
Proof.
  assert (Hhead : forall s,
            prefix p s = true ->
            exists pre post,
              s = pre ++ p ++ post /\ first_occurrence p pre s
              /\ r ++ drop (String.length p) s = pre ++ r ++ post).
  { intros s0 H. apply prefix_begins in H. destruct H as [t ->].
    exists "", t. rewrite drop_length_append.
    repeat split; [now exists t | intros; cbn; lia]. }
  induction s as [|c s IH]; cbn [includes replace].
  - intros H. rewrite H. now apply Hhead.
  - destruct (prefix p (String c s)) eqn:Hp.
    + intros _. now apply Hhead.
    + cbn [orb]. intros H. destruct (IH H) as (pre & post & E & [_ Hmin] & Hr).
      exists (String c pre), post. cbn [append].
      repeat split.
      * now rewrite E at 1.
      * exists post. now rewrite E at 1.
      * intros a b Ea. destruct a as [|d a].
        -- cbn [append] in Ea. rewrite Ea, prefix_append in Hp. discriminate.
        -- cbn [append] in Ea. injection Ea as <- Ea. cbn [String.length].
           apply le_n_S. now apply (Hmin a b).
      * now rewrite Hr.
Qed.

(** ** Texts that stay absent *)

Lemma tails_tail (v x : string) (c : ascii) :
  In (String c v) (tails x) -> In v (tails x).
Proof.
  induction x as [|d x IH]; cbn [tails].
  - intros [H | []]. discriminate.
  - intros [H | H].
    + injection H as -> ->. right. destruct v; now left.
    + right. now apply IH.
Qed.

Lemma tails_self (s : string) : In s (tails s).
Proof. destruct s; now left. Qed.

Lemma prefix_cons (c d : ascii) (v s : string) :
  prefix (String c v) (String d s) = Ascii.eqb c d && prefix v s.
Proof.
  cbn. destruct (ascii_dec c d) as [->|n].
  - now rewrite Ascii.eqb_refl.
  - apply Ascii.eqb_neq in n. now rewrite n.
Qed.

Lemma includes_append_r (a b w : string) :
  includes (a ++ b) w = false -> includes b w = false.
Proof.
  intros H. destruct (includes b w) eqn:E; [| reflexivity].
  apply includes_occurs in E. destruct E as (x & y & ->).
  rewrite <- H. symmetry. apply includes_occurs.
  exists (a ++ x), y. now rewrite append_assoc.
Qed.

Lemma includes_append_l (a b w : string) :
  includes (a ++ b) w = false -> includes a w = false.
Proof.
  intros H. destruct (includes a w) eqn:E; [| reflexivity].
  apply includes_occurs in E. destruct E as (x & y & ->).
  rewrite <- H. symmetry. apply includes_occurs.
  exists x, (y ++ b). now rewrite !append_assoc.
Qed.

(** A prefix test that has passed a character of neither text. *)
Lemma prefix_across (c : ascii) (w a b : string) :
  char_in c w = false ->
  prefix w (a ++ String c b) = true -> prefix w a = true.
Proof.
  unfold char_in. rewrite negb_false_iff. revert a.
  induction w as [|d w IH]; intros a Hw H; [apply prefix_nil |].
  cbn [all_chars] in Hw. apply andb_true_iff in Hw. destruct Hw as [Hd Hw].
  destruct a as [|e a]; cbn [append] in H; rewrite prefix_cons in *.
  - apply negb_true_iff in Hd. rewrite Hd in H. discriminate.
  - apply andb_true_iff in H. destruct H as [-> H]. now apply IH.
Qed.

(** An occurrence does not go across a character of neither text. *)
Lemma includes_across (c : ascii) (w a b : string) :
  char_in c w = false ->
  includes (a ++ String c b) w = includes a w || includes b w.
Proof.
  intros Hc. induction a as [|d a IH].
  - cbn [append includes]. 
    destruct (prefix w (String c b)) eqn:E.
    + apply (prefix_across c w "" b Hc) in E.
      destruct w; [| discriminate]. cbn. now destruct b.
    + destruct w; [discriminate | reflexivity].
  - cbn [append includes]. rewrite IH.
    destruct (prefix w (String d (a ++ String c b))) eqn:E.
    + change (String d (a ++ String c b)) with (String d a ++ String c b) in E.
      apply (prefix_across c w _ _ Hc) in E. rewrite E. reflexivity.
    + destruct (prefix w (String d a)) eqn:E2; [| reflexivity].
      apply prefix_begins in E2. destruct E2 as [t E2].
      assert (E3 : prefix w (String d (a ++ String c b)) = true).
      { change (String d (a ++ String c b)) with (String d a ++ String c b).
        rewrite E2, append_assoc. apply prefix_append. }
      congruence.
Qed.

Section Absent.

Variable r : regex.
Variable f : string -> captures -> string.
Variable token : string -> captures -> Prop.
Variable w : string.

Hypothesis token_exec :
  forall tok caps rest,
    token tok caps -> exec true r (tok ++ rest) = Some (caps, rest).
Hypothesis exec_token :
  forall s caps rest,
    exec true r s = Some (caps, rest) ->
    exists tok, s = tok ++ rest /\ token tok caps.
Hypothesis token_not_empty : forall caps, ~ token "" caps.

(** What replaces a token without [w] is without [w], ends with a
    character that is not of [w], and begins with a proper suffix of [w]
    only if the token does. *)
Hypothesis rep_absent :
  forall tok caps,
    token tok caps -> includes tok w = false ->
    includes (f tok caps) w = false.
Hypothesis rep_end :
  forall tok caps,
    token tok caps ->
    exists l c, f tok caps = l ++ chr c /\ char_in c w = false.
Hypothesis rep_head :
  forall tok caps x y v,
    token tok caps -> In v (tails (drop 1 w)) ->
    prefix v (f tok caps ++ x) = true -> prefix v (tok ++ y) = true.

Lemma absent_step (n : nat) :
  forall s,
    String.length s <= n ->
    (includes s w = false -> includes (replace_all true r f s) w = false)
    /\ (forall v,
          In v (tails (drop 1 w)) ->
          prefix v (replace_all true r f s) = true -> prefix v s = true).
Proof.
  induction n as [|n IH]; intros s Hlen.
  - destruct s; [| cbn in Hlen; lia].
    rewrite (scan_nil r f token exec_token token_not_empty). now split.
  - destruct s as [|c s].
    { rewrite (scan_nil r f token exec_token token_not_empty). now split. }
    destruct (exec true r (String c s)) as [[caps rest]|] eqn:E.
    + destruct (exec_token _ _ _ E) as (tok & Es & Ht).
      assert (Hne : tok <> "").
      { intros ->. exact (token_not_empty _ Ht). }
      assert (Hrest : String.length rest <= n).
      { apply (f_equal String.length) in Es. rewrite length_append in Es.
        cbn [String.length] in *. destruct tok; [now elim Hne |].
        cbn [String.length] in Es. lia. }
      destruct (IH rest Hrest) as [IHa IHb].
      rewrite Es. rewrite (scan_token r f token token_exec token_not_empty _ _ _ Ht).
      split.
      * intros Hw. destruct (rep_end _ _ Ht) as (l & e & El & He).
        pose proof (rep_absent _ _ Ht (includes_append_l _ _ _ Hw)) as Hrep.
        rewrite El in *. rewrite append_assoc. cbn [chr append].
        rewrite (includes_across _ _ _ _ He).
        rewrite (includes_append_l _ _ _ Hrep).
        apply IHa. exact (includes_append_r _ _ _ Hw).
      * intros v Hv Hp. exact (rep_head _ _ _ _ _ Ht Hv Hp).
    + assert (Hs : String.length s <= n) by (cbn in Hlen; lia).
      destruct (IH s Hs) as [IHa IHb].
      rewrite (replace_all_copy _ _ _ _ _ E).
      split.
      * cbn [includes]. intros Hw. apply orb_false_iff in Hw.
        destruct Hw as [Hp Hw]. rewrite (IHa Hw), orb_false_r.
        destruct w as [|d w']; [discriminate |].
        rewrite prefix_cons in *.
        destruct (Ascii.eqb d c); [| reflexivity]. cbn [andb] in *.
        destruct (prefix w' (replace_all true r f s)) eqn:Ep; [| reflexivity].
        rewrite <- Hp. symmetry. apply IHb; [| exact Ep].
        cbn [drop]. apply tails_self.
      * intros v Hv Hp. destruct v as [|d v]; [reflexivity |].
        rewrite prefix_cons in *. apply andb_true_iff in Hp.
        destruct Hp as [-> Hp]. cbn [andb].
        apply IHb; [| exact Hp]. exact (tails_tail _ _ _ Hv).
Qed.

Lemma absent_preserved (s : string) :
  includes s w = false -> includes (replace_all true r f s) w = false.
Proof. exact (proj1 (absent_step (String.length s) s (le_n _))). Qed.

End Absent.

(** *** The head tags through the two replacements *)

Lemma includes_needs_first (c : ascii) (w s : string) :
  all_chars (fun d => negb (Ascii.eqb d c)) s = true ->
  includes s (String c w) = false.
Proof.
  induction s as [|d s IH]; [reflexivity |].
  cbn [all_chars includes]. intros H. apply andb_true_iff in H.
  destruct H as [Hd Hs]. rewrite (IH Hs), orb_false_r, prefix_cons.
  apply negb_true_iff in Hd. rewrite Ascii.eqb_sym, Hd. reflexivity.
Qed.

Lemma head_tag_absent (w s : string) :
  head_tag w -> all_chars not_lt s = true -> includes s w = false.
Proof. intros [-> | ->]; apply includes_needs_first. Qed.

Lemma lower_not_lt (c : ascii) :
  negb (Ascii.eqb (lower_ascii c) "<") = true -> not_lt c = true.
Proof.
  assert (H : forall c, implb (negb (Ascii.eqb (lower_ascii c) "<")) (not_lt c) = true).
  { apply forall_ascii. vm_compute. reflexivity. }
  specialize (H c). destruct (negb _); [exact (fun _ => H) | discriminate].
Qed.

Lemma lower_chars (q : ascii -> bool) (s : string) :
  all_chars q (toLowerCase s) = all_chars (fun c => q (lower_ascii c)) s.
Proof. induction s as [|c s IH]; [reflexivity |]. cbn. now rewrite IH. Qed.

Lemma name_not_lt (name lit : string) :
  toLowerCase name = lit -> all_chars not_lt lit = true ->
  all_chars not_lt name = true.
Proof.
  intros <- H. rewrite lower_chars in H.
  revert H. apply all_chars_impl. intros c. apply lower_not_lt.
Qed.

Lemma component_char_not_lt (c : ascii) :
  component_char c = true -> not_lt c = true.
Proof.
  assert (H : forall c, implb (component_char c) (not_lt c) = true).
  { apply forall_ascii. vm_compute. reflexivity. }
  specialize (H c). destruct (component_char c); [exact (fun _ => H) | discriminate].
Qed.

Lemma proxyUrl_not_lt (url b : string) : all_chars not_lt (proxyUrl url b) = true.
Proof.
  apply proxyUrl_chars; [vm_compute; reflexivity | apply component_char_not_lt].
Qed.

Lemma quote_not_in_head_tag (w : string) (q : ascii) :
  head_tag w -> is_quote q = true -> char_in q w = false.
Proof.
  unfold is_quote. intros Hw Hq. apply orb_true_iff in Hq.
  destruct Hq as [Hq | Hq]; apply Ascii.eqb_eq in Hq; subst;
    destruct Hw as [-> | ->]; reflexivity.
Qed.

(** Two texts with the same beginning, in which stands a character that
    [v] has not, have [v] as a prefix together. *)
Lemma prefix_common_head (e : ascii) (v h x y : string) :
  char_in e v = false ->
  prefix v ((h ++ chr e) ++ x) = prefix v ((h ++ chr e) ++ y).
Proof.
  unfold char_in. rewrite negb_false_iff. revert h.
  induction v as [|c v IH]; intros h Hv.
  - now rewrite !prefix_nil.
  - cbn [all_chars] in Hv. apply andb_true_iff in Hv. destruct Hv as [Hc Hv].
    destruct h as [|d h]; cbn [append chr]; rewrite !prefix_cons.
    + apply negb_true_iff in Hc. now rewrite Hc.
    + now rewrite (IH h Hv).
Qed.

Lemma head_tag_tails (w v : string) :
  head_tag w -> In v (tails (drop 1 w)) ->
  char_in "=" v = false /\ (v = "" \/ exists c v', v = String c v' /\ lower_ascii c <> "s"%char).
Proof.
  intros [-> | ->] H; cbn in H;
    repeat (destruct H as [<- | H]; [split; [reflexivity |] |]);
    try contradiction;
    first [ now left | right; eexists; eexists; split; [reflexivity | discriminate] ].
Qed.

Lemma rewrite_attrs_absent (w s b : string) :
  head_tag w -> includes s w = false -> includes (rewrite_attrs s b) w = false.
Proof.
  intros Hw. unfold rewrite_attrs.
  apply (absent_preserved attr_re (rewrite_attr b)
           (fun tok caps =>
              exists attr value,
                attr_token tok attr value /\ caps = [attr; value])).
  - intros tok caps rest (attr & value & Ht & ->). now apply attr_token_exec.
  - intros s0 caps rest. apply attr_exec_token.
  - intros caps (attr & value & Ht & _). exact (attr_token_not_empty _ _ Ht).
  - intros tok caps (attr & value & Ht & ->) Habs.
    unfold rewrite_attr. cbn [nth].
    destruct (_ || _); [exact Habs |].
    apply (head_tag_absent _ _ Hw).
    destruct Ht as (q1 & q2 & _ & Hattr & _).
    rewrite !all_chars_append, proxyUrl_not_lt.
    assert (Ha : all_chars not_lt attr = true).
    { destruct Hattr as [H | H]; now apply (name_not_lt _ _ H). }
    now rewrite Ha.
  - intros tok caps (attr & value & Ht & ->).
    unfold rewrite_attr. cbn [nth].
    destruct Ht as (q1 & q2 & -> & _ & _ & Hq2 & _).
    destruct (_ || _).
    + exists (attr ++ "=" ++ chr q1 ++ value), q2.
      split; [now rewrite !append_assoc |].
      now apply quote_not_in_head_tag.
    + exists (attr ++ "=" ++ chr dquote ++ proxyUrl value b), dquote.
      split; [now rewrite !append_assoc |].
      now apply quote_not_in_head_tag.
  - intros tok caps x y v (attr & value & Ht & ->) Hv.
    destruct (head_tag_tails _ _ Hw Hv) as [He _].
    unfold rewrite_attr. cbn [nth].
    destruct Ht as (q1 & q2 & -> & _).
    assert (E : forall z t, (attr ++ "=" ++ z) ++ t
                            = (attr ++ chr "=") ++ (z ++ t)).
    { intros z t. now rewrite !append_assoc. }
    destruct (_ || _); rewrite !E;
      now rewrite (prefix_common_head "=" v attr _ (chr q1 ++ (value ++ chr q2) ++ y) He).
Qed.

Lemma occurs_trans (w t s : string) :
  occurs_in w t -> occurs_in t s -> occurs_in w s.
Proof.
  intros (a & b & ->) (c & d & ->).
  exists (c ++ a), (b ++ d). now rewrite !append_assoc.
Qed.

Lemma occurs_nil (s : string) : occurs_in "" s.
Proof. now exists "", s. Qed.

Lemma occurs_cons (c : ascii) (t s : string) :
  occurs_in t s -> occurs_in t (String c s).
Proof. intros (a & b & ->). now exists (String c a), b. Qed.

Lemma fields_occurs (l : list (ascii * bool)) (t : string) :
  In t (fields l) -> occurs_in t (unmark l).
Proof.
  induction l as [|[c [|]] l IH]; cbn [fields].
  - intros [<- | []]. apply occurs_nil.
  - rewrite unmark_cons. intros H. apply occurs_cons.
    destruct l as [|[d [|]] l']; [| now apply IH |];
      (destruct H as [<- | H]; [apply occurs_nil | now apply IH]).
  - rewrite unmark_cons. pose proof (fields_head_prefix l) as Hp.
    destruct (fields l) as [|x xs] eqn:E; [now elim (fields_not_nil l) |].
    cbn [hd] in Hp. intros [<- | H].
    + apply prefix_begins in Hp. destruct Hp as [u ->].
      now exists "", u.
    + apply occurs_cons, IH. now right.
Qed.

Lemma split_ws_occurs (s t : string) : In t (split_ws s) -> occurs_in t s.
Proof.
  intros H. apply fields_occurs in H. unfold mark in H.
  now rewrite unmark_mark_from in H.
Qed.

Lemma drop_ws_suffix (l : list (ascii * bool)) :
  exists h, l = (h ++ drop_ws l)%list.
Proof.
  induction l as [|[c [|]] l IH]; [now exists [] | | now exists []].
  destruct IH as [h E]. exists ((c, true) :: h). cbn [drop_ws app].
  now rewrite <- E.
Qed.

Lemma trim_occurs (s : string) : occurs_in (trim s) s.
Proof.
  unfold trim. destruct (drop_ws_suffix (mark s)) as [h1 E1].
  destruct (drop_ws_suffix (rev (drop_ws (mark s)))) as [h2 E2].
  apply (f_equal (@rev _)) in E2. rewrite rev_involutive, rev_app_distr in E2.
  exists (unmark h1), (unmark (rev h2)).
  rewrite <- !unmark_app, <- E2, <- E1. unfold mark.
  now rewrite unmark_mark_from.
Qed.

Lemma split_head_prefix (sep : ascii) (s : string) :
  prefix (hd "" (split sep s)) s = true.
Proof.
  induction s as [|c s IH]; [reflexivity |]. cbn [split].
  destruct (Ascii.eqb c sep); [reflexivity |].
  destruct (split sep s) as [|x xs]; cbn [hd] in *; unfold chr;
    rewrite prefix_cons, Ascii.eqb_refl; [apply prefix_nil | exact IH].
Qed.

Lemma split_occurs (sep : ascii) (s t : string) :
  In t (split sep s) -> occurs_in t s.
Proof.
  induction s as [|c s IH]; cbn [split].
  - intros [<- | []]. apply occurs_nil.
  - pose proof (split_head_prefix sep s) as Hp.
    destruct (Ascii.eqb c sep).
    + intros [<- | H]; [apply occurs_nil | now apply occurs_cons, IH].
    + destruct (split sep s) as [|x xs]; cbn [hd] in Hp.
      * intros [<- | []]. exists "", s. reflexivity.
      * intros [<- | H].
        -- apply prefix_begins in Hp. destruct Hp as [u ->]. now exists "", u.
        -- apply occurs_cons, IH. now right.
Qed.

Lemma includes_nil_false (w : string) : w <> "" -> includes "" w = false.
Proof. destruct w; [intros H; now elim H | reflexivity]. Qed.

Lemma includes_join (w : string) (l : list string) :
  w <> "" -> char_in "," w = false -> char_in " " w = false ->
  includes (join ", " l) w = existsb (fun x => includes x w) l.
Proof.
  intros Hne Hc Hs. unfold join. induction l as [|x l IH].
  - now apply includes_nil_false.
  - cbn [String.concat existsb]. destruct l as [|y l].
    + cbn [existsb]. now rewrite orb_false_r.
    + change (x ++ ", " ++ String.concat ", " (y :: l))
        with (x ++ String "," ("" ++ String " " (String.concat ", " (y :: l)))).
      rewrite (includes_across _ _ _ _ Hc), (includes_across _ _ _ _ Hs).
      now rewrite (includes_nil_false _ Hne), IH.
Qed.

Lemma rewrite_candidate_absent (w b part : string) :
  head_tag w -> includes part w = false ->
  includes (rewrite_candidate b part) w = false.
Proof.
  intros Hw Hpart. rewrite rewrite_candidate_shape.
  assert (Hs : char_in " " w = false) by (destruct Hw as [-> | ->]; reflexivity).
  assert (Hp : forall u, includes (proxyUrl u b) w = false).
  { intros u. apply (head_tag_absent _ _ Hw), proxyUrl_not_lt. }
  destruct (nth_error _ 1) as [[|c d]|] eqn:E; cbn [descriptor_suffix];
    rewrite ?append_nil_r; trivial.
  change (" " ++ String c d) with (String " " (String c d)).
  rewrite (includes_across _ _ _ _ Hs), Hp. cbn [orb].
  destruct (includes (String c d) w) eqn:Ed; [| reflexivity].
  rewrite <- Hpart. symmetry. apply includes_occurs.
  apply includes_occurs in Ed. apply (occurs_trans _ _ _ Ed).
  apply nth_error_In, split_ws_occurs in E.
  exact (occurs_trans _ _ _ E (trim_occurs part)).
Qed.

Lemma includes_quoted (w h x : string) :
  w <> "" -> char_in dquote w = false ->
  includes (h ++ chr dquote ++ x ++ chr dquote) w
  = includes h w || includes x w.
Proof.
  intros Hne Hq. unfold chr.
  change (h ++ String dquote "" ++ x ++ String dquote "")
    with (h ++ String dquote (x ++ String dquote "")).
  rewrite (includes_across _ _ _ _ Hq), (includes_across _ _ _ _ Hq).
  now rewrite (includes_nil_false _ Hne), orb_false_r.
Qed.

Lemma rewrite_srcsets_absent (w s b : string) :
  head_tag w -> includes s w = false ->
  includes (rewrite_srcsets s b) w = false.
Proof.
  intros Hw. unfold rewrite_srcsets.
  assert (Hne : w <> "") by (destruct Hw as [-> | ->]; discriminate).
  assert (Hq : char_in dquote w = false) by (now apply quote_not_in_head_tag).
  assert (Hcomma : char_in "," w = false) by (destruct Hw as [-> | ->]; reflexivity).
  assert (Hspace : char_in " " w = false) by (destruct Hw as [-> | ->]; reflexivity).
  assert (Hname : includes "srcset=" w = false).
  { apply (head_tag_absent _ _ Hw). reflexivity. }
  apply (absent_preserved srcset_re (rewrite_srcset b)
           (fun tok caps => exists value, srcset_token tok value /\ caps = [value])).
  - intros tok caps rest (value & Ht & ->). now apply srcset_token_exec.
  - intros s0 caps rest. apply srcset_exec_token.
  - intros caps (value & Ht & _). exact (srcset_token_not_empty _ Ht).
  - intros tok caps (value & Ht & ->) Habs.
    unfold rewrite_srcset. cbn [nth].
    rewrite (includes_quoted _ _ _ Hne Hq), Hname. cbn [orb].
    rewrite (includes_join _ _ Hne Hcomma Hspace).
    apply not_true_is_false. intros H. apply existsb_exists in H.
    destruct H as (cand & Hin & Hc). apply in_map_iff in Hin.
    destruct Hin as (part & <- & Hin).
    rewrite rewrite_candidate_absent in Hc; [discriminate | exact Hw |].
    destruct (includes part w) eqn:Ep; [| reflexivity].
    rewrite <- Habs. symmetry. apply includes_occurs.
    apply includes_occurs in Ep. apply (occurs_trans _ _ _ Ep).
    apply split_occurs in Hin. apply (occurs_trans _ _ _ Hin).
    destruct Ht as (name & q1 & q2 & -> & _).
    exists (name ++ "=" ++ chr q1), (chr q2). now rewrite !append_assoc.
  - intros tok caps (value & Ht & ->).
    unfold rewrite_srcset. cbn [nth].
    exists ("srcset=" ++ chr dquote
            ++ join ", " (map (rewrite_candidate b) (split "," value))),
      dquote.
    split; [now rewrite !append_assoc | exact Hq].
  - intros tok caps x y v (value & Ht & ->) Hv.
    destruct (head_tag_tails _ _ Hw Hv) as [_ [-> | (c & v' & -> & Hc)]].
    + intros _. apply prefix_nil.
    + unfold rewrite_srcset.
      change ("srcset=" ++ ?z) with (String "s" ("rcset=" ++ z)).
      cbn [append]. rewrite prefix_cons.
      destruct (Ascii.eqb_spec c "s") as [-> |]; [now elim Hc | discriminate].
Qed.


(** ** The header sanitizer *)

Arguments same_name : simpl never.

Lemma same_name_eq (a b : string) :
  same_name a b = true <-> toLowerCase a = toLowerCase b.
Proof. apply String.eqb_eq. Qed.

Lemma same_name_refl (a : string) : same_name a a = true.
Proof. apply String.eqb_refl. Qed.

Lemma same_name_other (k name name' : string) :
  same_name k name = true -> same_name name name' = false ->
  same_name k name' = false.
Proof.
  unfold same_name. rewrite String.eqb_eq. intros ->. exact (fun H => H).
Qed.

Lemma filter_same_name_none (name : string) (h : Headers) :
  filter (fun kv => same_name (fst kv) name)
    (filter (fun kv => negb (same_name (fst kv) name)) h) = [].
Proof.
  induction h as [|[k v] h IH]; [reflexivity |]. cbn.
  destruct (same_name k name) eqn:E; cbn; [exact IH |].
  now rewrite E.
Qed.

Lemma filter_other_name (name name' : string) (h : Headers) :
  same_name name name' = false ->
  filter (fun kv => same_name (fst kv) name')
    (filter (fun kv => negb (same_name (fst kv) name)) h)
  = filter (fun kv => same_name (fst kv) name') h.
Proof.
  intros Hn. induction h as [|[k v] h IH]; [reflexivity |]. cbn.
  destruct (same_name k name) eqn:E; cbn.
  - now rewrite (same_name_other _ _ _ E Hn).
  - now rewrite IH.
Qed.

Lemma get_set_same (name value : string) (h : Headers) :
  get name (set name value h) = Some value.
Proof.
  unfold get. induction h as [|[k v] h IH]; cbn.
  - now rewrite same_name_refl.
  - destruct (same_name k name) eqn:E; cbn; rewrite E.
    + now rewrite filter_same_name_none.
    + exact IH.
Qed.

Lemma get_set_other (name name' value : string) (h : Headers) :
  same_name name name' = false ->
  get name' (set name value h) = get name' h.
Proof.
  intros Hn. unfold get. induction h as [|[k v] h IH]; cbn.
  - now rewrite Hn.
  - destruct (same_name k name) eqn:E; cbn.
    + rewrite (same_name_other _ _ _ E Hn).
      now rewrite (filter_other_name _ _ _ Hn).
    + destruct (same_name k name'); [| exact IH].
      f_equal. cbn.
      assert (Hf : filter (fun kv => same_name (fst kv) name')
                     (set name value h)
                   = filter (fun kv => same_name (fst kv) name') h).
      { clear IH E. induction h as [|[k2 v2] h IH2]; cbn.
        - now rewrite Hn.
        - destruct (same_name k2 name) eqn:E2; cbn.
          + rewrite (same_name_other _ _ _ E2 Hn).
            now rewrite (filter_other_name _ _ _ Hn).
          + now rewrite IH2. }
      now rewrite Hf.
Qed.

Lemma cleanHeaders_loop (h : Headers) :
  cleanHeaders h
  = set "Access-Control-Allow-Origin" "*" (fold_left copy_header h []).
Proof. reflexivity. Qed.

Lemma copy_header_cases (acc : Headers) (kv : string * string) :
  copy_header acc kv
  = if is_stripped (fst kv) then acc else set (fst kv) (snd kv) acc.
Proof.
  unfold copy_header, is_stripped, stripped. cbn [existsb].
  unfold same_name.
  change (toLowerCase "X-Frame-Options") with "x-frame-options".
  change (toLowerCase "Content-Security-Policy")
    with "content-security-policy".
  change (toLowerCase "Content-Security-Policy-Report-Only")
    with "content-security-policy-report-only".
  destruct (String.eqb _ "x-frame-options"); [reflexivity |].
  destruct (String.eqb _ "content-security-policy"); [reflexivity |].
  now destruct (String.eqb _ "content-security-policy-report-only").
Qed.

Lemma is_stripped_same_name (a b : string) :
  same_name a b = true -> is_stripped a = is_stripped b.
Proof.
  rewrite same_name_eq. intros H. unfold is_stripped, stripped, same_name.
  cbn [existsb]. now rewrite H.
Qed.

(** The loop keeps, for each name it does not strip, the value of the last
    entry of that name. *)
Lemma loop_latest (name : string) (h acc : Headers) :
  is_stripped name = false ->
  get name (fold_left copy_header h acc) = latest name h (get name acc).
Proof.
  intros Hn. revert acc. unfold latest.
  induction h as [|[k v] h IH]; intros acc; [reflexivity |].
  cbn [fold_left]. rewrite IH. f_equal.
  rewrite copy_header_cases. cbn [fst snd].
  destruct (same_name k name) eqn:E.
  - rewrite (is_stripped_same_name _ _ E), Hn.
    apply same_name_eq in E. unfold get, same_name. rewrite <- E.
    apply get_set_same.
  - destruct (is_stripped k); [reflexivity |]. now apply get_set_other.
Qed.

(** The loop copies no entry of a name it strips. *)
Lemma loop_stripped (name : string) (h acc : Headers) :
  is_stripped name = true ->
  get name (fold_left copy_header h acc) = get name acc.
Proof.
  intros Hn. revert acc.
  induction h as [|[k v] h IH]; intros acc; [reflexivity |].
  cbn [fold_left]. rewrite IH, copy_header_cases. cbn [fst snd].
  destruct (is_stripped k) eqn:Ek; [reflexivity |].
  apply get_set_other. destruct (same_name k name) eqn:E; [| reflexivity].
  rewrite (is_stripped_same_name _ _ E) in Ek. congruence.
Qed.

Lemma latest_from (name : string) (h : Headers) (init : option string) :
  (forall kv, In kv h -> same_name (fst kv) name = false) ->
  latest name h init = init.
Proof.
  unfold latest. revert init.
  induction h as [|kv h IH]; intros init Hh; [reflexivity |].
  cbn [fold_left]. rewrite (Hh kv (or_introl eq_refl)).
  apply IH. intros kv' Hin. apply Hh. now right.
Qed.

Lemma latest_of_set (k v : string) (h : Headers) (init : option string) :
  header_set h -> In (k, v) h -> latest k h init = Some v.
Proof.
  unfold header_set. revert init.
  induction h as [|[k' v'] h IH]; intros init Hnd Hin; [contradiction |].
  cbn in Hnd. inversion Hnd as [|? ? Hnotin Hnd']; subst.
  destruct Hin as [[= -> ->] | Hin].
  - unfold latest. cbn [fold_left fst snd]. rewrite same_name_refl.
    apply latest_from. intros [k2 v2] Hin2. cbn [fst].
    destruct (same_name k2 k) eqn:E; [| reflexivity].
    elim Hnotin. apply same_name_eq in E. rewrite <- E.
    now apply (in_map (fun kv => toLowerCase (fst kv)) h (k2, v2)).
  - unfold latest. cbn [fold_left]. now apply IH.
Qed.

Lemma latest_origin (name v : string) (h : Headers) (init : option string) :
  latest name h init = Some v ->
  init = Some v \/ exists k, same_name k name = true /\ In (k, v) h.
Proof.
  unfold latest. revert init.
  induction h as [|[k' v'] h IH]; intros init H; [now left |].
  cbn [fold_left fst snd] in H. apply IH in H.
  destruct H as [H | (k & Hk & Hin)].
  - destruct (same_name k' name) eqn:E; [| now left].
    injection H as ->. right. exists k'. split; [exact E | now left].
  - right. exists k. split; [exact Hk | now right].
Qed.

(** X20.  What the sanitizer does with any list of headers: it leaves out
    the headers named X-Frame-Options, Content-Security-Policy and
    Content-Security-Policy-Report-Only in any letter case, and gives
    Access-Control-Allow-Origin the value [*] whatever the upstream said.
    Every other name keeps the value of its last entry, and of that entry
    only; on a header set, where each name has one entry, every other
    header is therefore found with the value it had.  The outbound headers
    hold nothing else. *)
Theorem cleanHeaders_sanitizes (h : Headers) :
  (forall name, is_stripped name = true -> get name (cleanHeaders h) = None)
  /\ get "Access-Control-Allow-Origin" (cleanHeaders h) = Some "*"
  /\ (forall name,
        is_stripped name = false ->
        same_name "Access-Control-Allow-Origin" name = false ->
        get name (cleanHeaders h) = latest name h None)
  /\ (header_set h ->
      forall k v,
        In (k, v) h -> is_stripped k = false ->
        same_name "Access-Control-Allow-Origin" k = false ->
        get k (cleanHeaders h) = Some v)
  /\ (forall name v,
        get name (cleanHeaders h) = Some v ->
        (same_name "Access-Control-Allow-Origin" name = true /\ v = "*")
        \/ (is_stripped name = false
            /\ exists k, same_name k name = true /\ In (k, v) h)).
Proof.
  rewrite cleanHeaders_loop.
  assert (Hkeep : forall name,
             is_stripped name = false ->
             same_name "Access-Control-Allow-Origin" name = false ->
             get name (set "Access-Control-Allow-Origin" "*"
                         (fold_left copy_header h []))
             = latest name h None).
  { intros name Hn Hacao. rewrite (get_set_other _ _ _ _ Hacao).
    now rewrite (loop_latest _ _ _ Hn). }
  split; [| split; [| split; [| split]]].
  - intros name Hn. rewrite get_set_other.
    + now rewrite loop_stripped.
    + destruct (same_name _ name) eqn:E; [| reflexivity].
      rewrite <- (is_stripped_same_name _ _ E) in Hn. discriminate.
  - apply get_set_same.
  - exact Hkeep.
  - intros Hset k v Hin Hk Hacao. rewrite (Hkeep _ Hk Hacao).
    now apply latest_of_set.
  - intros name v H.
    destruct (same_name "Access-Control-Allow-Origin" name) eqn:E.
    + left. split; [reflexivity |].
      apply same_name_eq in E. unfold get, same_name in H.
      rewrite <- E in H.
      pose proof (get_set_same "Access-Control-Allow-Origin" "*"
                    (fold_left copy_header h [])) as G.
      unfold get, same_name in G. congruence.
    + right. destruct (is_stripped name) eqn:Es.
      * rewrite (get_set_other _ _ _ _ E), (loop_stripped _ _ _ Es) in H.
        discriminate.
      * split; [reflexivity |].
        rewrite (Hkeep _ Es E) in H.
        apply latest_origin in H. destruct H as [H | H]; [discriminate H |].
        exact H.
Qed.

(** C2, at the failing input.  An upstream answers with two [Set-Cookie]
    headers, which the iteration yields one by one.  Both are headers other
    than the three that are removed, yet the sanitizer copies with [set],
    which replaces: the second entry takes the place of the first, the
    value under the name, [a=1, b=2] before, is [b=2] after, and no header
    of the outbound list carries the first cookie. *)
Theorem set_cookie_entries_collapse :
  is_stripped "set-cookie" = false
  /\ get "set-cookie" [("set-cookie", "a=1"); ("set-cookie", "b=2")]
     = Some "a=1, b=2"
  /\ cleanHeaders [("set-cookie", "a=1"); ("set-cookie", "b=2")]
     = [("set-cookie", "b=2"); ("Access-Control-Allow-Origin", "*")]
  /\ get "set-cookie"
       (cleanHeaders [("set-cookie", "a=1"); ("set-cookie", "b=2")])
     = Some "b=2"
  /\ forallb (fun kv => negb (String.eqb (snd kv) "a=1"))
       (cleanHeaders [("set-cookie", "a=1"); ("set-cookie", "b=2")])
     = true.
Proof. repeat split. Qed.

(** ** The request handler *)

Section HandlerFacts.

Variable parse_URL : string -> result (string * string).
Variable global_fetch : string -> Headers -> result Response.
Variable read_text : Body -> result string.

Lemma eqb_method_false (m : string) :
  m <> "OPTIONS" -> String.eqb m "OPTIONS" = false.
Proof. intros H. now apply String.eqb_neq. Qed.

(** The response of the [catch] clause. *)
Lemma error_response (message : string) :
  exists r,
    new_Response (Text ("Proxy error: " ++ message)) 500 corsHeaders = Ok r
    /\ status r = 500
    /\ body r = Text ("Proxy error: " ++ message)
    /\ get "Content-Type" (headers r) = Some "text/plain;charset=UTF-8"
    /\ has_cors_headers r.
Proof. eexists. split; [reflexivity |]. now repeat split. Qed.

(** C9. A request of method OPTIONS is answered at once, with status 200,
    no body and the three CORS headers, whatever its [url] parameter; the
    trace of upstream fetches is left as it was. *)
Theorem options_preflight (request : Request) (t : Trace) :
  method request = "OPTIONS" ->
  exists r,
    fetch parse_URL global_fetch read_text request t = (Ok r, t)
    /\ (status r = 200 \/ status r = 204)
    /\ body r = Null
    /\ has_cors_headers r.
Proof.
  intros Hm. unfold fetch. rewrite Hm. cbn.
  eexists. split; [reflexivity |]. repeat split. now left.
Qed.

(** C8. A request of another method whose [url] parameter is missing or
    empty gets status 400, the plain text [Missing url parameter] and the
    CORS headers; no upstream fetch is made. *)
Theorem missing_url_parameter (request : Request) (t : Trace) :
  method request <> "OPTIONS" ->
  searchParams_get "url" (searchParams request) = None
  \/ searchParams_get "url" (searchParams request) = Some "" ->
  exists r,
    fetch parse_URL global_fetch read_text request t = (Ok r, t)
    /\ status r = 400
    /\ body r = Text "Missing url parameter"
    /\ get "Content-Type" (headers r) = Some "text/plain;charset=UTF-8"
    /\ has_cors_headers r.
Proof.
  intros Hm Hu. unfold fetch. rewrite (eqb_method_false _ Hm).
  destruct Hu as [-> | ->]; cbn;
    (eexists; split; [reflexivity |]; now repeat split).
Qed.

(** The handler always returns a response: what the [try] block throws
    is caught, and the three responses built outside it are well formed. *)
Lemma handler_never_throws (request : Request) (t : Trace) :
  exists r t', fetch parse_URL global_fetch read_text request t = (Ok r, t').
Proof.
  unfold fetch.
  destruct (String.eqb (method request) "OPTIONS"); [now eexists; eexists |].
  destruct (searchParams_get "url" (searchParams request)) as [[|c u]|];
    [now eexists; eexists | | now eexists; eexists].
  unfold try_catch.
  destruct (proxy_target _ _ _ _ _ t) as [[r | message] t'];
    [now eexists; eexists |].
  destruct (error_response message) as (r & Hr & _).
  exists r, t'. unfold lift. now rewrite Hr.
Qed.

(** C7, amended.  Every request gets a response, none an exception.  For
    a request of a method other than OPTIONS with a [url] parameter that is
    not empty: when the parameter does not parse, or the upstream fetch
    throws, the response has status 500, the plain text [Proxy error: ]
    followed by the message of the exception, and the CORS headers; and so
    it is for whatever else the [try] block throws. *)
Theorem failures_become_500 (request : Request) (t : Trace) :
  (exists r t', fetch parse_URL global_fetch read_text request t = (Ok r, t'))
  /\ (forall targetUrl message,
        method request <> "OPTIONS" ->
        searchParams_get "url" (searchParams request) = Some targetUrl ->
        targetUrl <> "" ->
        parse_URL targetUrl = Throw message
        \/ ((exists o, parse_URL targetUrl = Ok o)
            /\ global_fetch targetUrl (fetch_headers request) = Throw message) ->
        exists r t',
          fetch parse_URL global_fetch read_text request t = (Ok r, t')
          /\ status r = 500
          /\ body r = Text ("Proxy error: " ++ message)
          /\ get "Content-Type" (headers r) = Some "text/plain;charset=UTF-8"
          /\ has_cors_headers r)
  /\ (forall targetUrl message t',
        method request <> "OPTIONS" ->
        searchParams_get "url" (searchParams request) = Some targetUrl ->
        targetUrl <> "" ->
        proxy_target parse_URL global_fetch read_text request targetUrl t
        = (Throw message, t') ->
        exists r,
          fetch parse_URL global_fetch read_text request t = (Ok r, t')
          /\ status r = 500
          /\ body r = Text ("Proxy error: " ++ message)
          /\ has_cors_headers r).
Proof.
  split; [apply handler_never_throws |].
  assert (Hcatch : forall targetUrl message t',
             method request <> "OPTIONS" ->
             searchParams_get "url" (searchParams request) = Some targetUrl ->
             targetUrl <> "" ->
             proxy_target parse_URL global_fetch read_text request targetUrl t
             = (Throw message, t') ->
             exists r,
               fetch parse_URL global_fetch read_text request t = (Ok r, t')
               /\ status r = 500
               /\ body r = Text ("Proxy error: " ++ message)
               /\ get "Content-Type" (headers r)
                  = Some "text/plain;charset=UTF-8"
               /\ has_cors_headers r).
  { intros u message t' Hm Hu Hne Hthrow.
    destruct (error_response message) as (r & Hr & Hrest).
    exists r. split; [| exact Hrest].
    unfold fetch. rewrite (eqb_method_false _ Hm), Hu.
    destruct u as [|c u]; [now elim Hne |].
    unfold try_catch. rewrite Hthrow. unfold lift. now rewrite Hr. }
  split.
  - intros u message Hm Hu Hne Hfail.
    assert (Hthrow : exists t',
               proxy_target parse_URL global_fetch read_text request u t
               = (Throw message, t')).
    { unfold proxy_target, bind, lift, await_fetch.
      destruct Hfail as [Hp | [[o Hp] Hf]]; rewrite Hp; [| rewrite Hf];
        now eexists. }
    destruct Hthrow as [t' Hthrow].
    destruct (Hcatch u message t' Hm Hu Hne Hthrow) as (r & Hr).
    now exists r, t'.
  - intros u message t' Hm Hu Hne Hthrow.
    destruct (Hcatch u message t' Hm Hu Hne Hthrow)
      as (r & Hf & Hst & Hb & _ & Hc).
    now exists r.
Qed.

Lemma new_Response_ok (b : Body) (st : nat) (h : Headers) (r : Response) :
  new_Response b st h = Ok r -> status r = st /\ body r = b.
Proof.
  unfold new_Response.
  destruct (negb _); [discriminate |].
  destruct b; [| destruct (null_body_status st) ..]; try discriminate;
    intros [= <-]; now split.
Qed.

(** C3, amended.  The handler classifies the upstream response by a
    substring test on the value of its Content-Type as it was received, an
    absent header counting as the empty string: a value that contains
    [text/html] sends the decoded body through the HTML rewriter; failing
    that, a value that contains [text/css] sends it through the CSS
    rewriter; for any other value the response is built from the upstream
    body itself, so that its body is the upstream body. *)
Theorem content_type_dispatch (request : Request) (t : Trace)
  (targetUrl protocol host : string) (upstream : Response) :
  method request <> "OPTIONS" ->
  searchParams_get "url" (searchParams request) = Some targetUrl ->
  targetUrl <> "" ->
  parse_URL targetUrl = Ok (protocol, host) ->
  global_fetch targetUrl (fetch_headers request) = Ok upstream ->
  let contentType := or_else (get "content-type" (headers upstream)) "" in
  let baseUrl := protocol ++ "//" ++ host in
  let t' := (t ++ [(targetUrl, fetch_headers request)])%list in
  let respond b :=
    new_Response b (status upstream) (cleanHeaders (headers upstream)) in
  (forall html r,
      includes contentType "text/html" = true ->
      read_text (body upstream) = Ok html ->
      respond (Text (rewriteHtml html baseUrl)) = Ok r ->
      fetch parse_URL global_fetch read_text request t = (Ok r, t')
      /\ body r = Text (rewriteHtml html baseUrl))
  /\ (forall css r,
        includes contentType "text/html" = false ->
        includes contentType "text/css" = true ->
        read_text (body upstream) = Ok css ->
        respond (Text (rewriteCss css baseUrl)) = Ok r ->
        fetch parse_URL global_fetch read_text request t = (Ok r, t')
        /\ body r = Text (rewriteCss css baseUrl))
  /\ (forall r,
        includes contentType "text/html" = false ->
        includes contentType "text/css" = false ->
        respond (body upstream) = Ok r ->
        fetch parse_URL global_fetch read_text request t = (Ok r, t')
        /\ body r = body upstream)
  /\ (get "content-type" (headers upstream) = None ->
      includes contentType "text/html" = false
      /\ includes contentType "text/css" = false).
Proof.
  intros Hm Hu Hne Hp Hf contentType baseUrl t' respond.
  assert (Hrun : fetch parse_URL global_fetch read_text request t
    = try_catch (proxy_target parse_URL global_fetch read_text request targetUrl)
        (fun message =>
           lift (new_Response (Text ("Proxy error: " ++ message)) 500
                   corsHeaders)) t).
  { unfold fetch. rewrite (eqb_method_false _ Hm), Hu.
    destruct targetUrl; [now elim Hne | reflexivity]. }
  rewrite Hrun.
  unfold try_catch, proxy_target, bind, lift, await_fetch.
  rewrite Hp, Hf. cbn [fst snd].
  fold contentType baseUrl t'.
  repeat split.
  - rewrite H, H0. unfold respond in H1. now rewrite H1.
  - now apply new_Response_ok in H1.
  - rewrite H, H0, H1. unfold respond in H2. now rewrite H2.
  - now apply new_Response_ok in H2.
  - rewrite H, H0. unfold respond in H1. now rewrite H1.
  - now apply new_Response_ok in H1.
  - subst contentType. now rewrite H.
  - subst contentType. now rewrite H.
Qed.

End HandlerFacts.

(** *** Closed instances *)

Lemma options_preflight_witness :
  method (Sample.OPTIONS "https://e.com/") = "OPTIONS"
  /\ exists r,
      fetch Sample.parse_URL Sample.unreachable Sample.read_text
        (Sample.OPTIONS "https://e.com/") [] = (Ok r, [])
      /\ (status r = 200 \/ status r = 204)
      /\ body r = Null
      /\ has_cors_headers r.
Proof.
  split; [reflexivity |].
  apply (options_preflight Sample.parse_URL Sample.unreachable
           Sample.read_text (Sample.OPTIONS "https://e.com/") []).
  reflexivity.
Defined.

Lemma missing_url_parameter_witness :
  exists r,
    fetch Sample.parse_URL Sample.unreachable Sample.read_text
      (mkRequest "GET" [("u", "https://e.com/")] []) [] = (Ok r, [])
    /\ status r = 400
    /\ body r = Text "Missing url parameter"
    /\ get "Content-Type" (headers r) = Some "text/plain;charset=UTF-8"
    /\ has_cors_headers r.
Proof.
  apply (missing_url_parameter Sample.parse_URL Sample.unreachable
           Sample.read_text (mkRequest "GET" [("u", "https://e.com/")] []) []).
  - discriminate.
  - left. reflexivity.
Defined.

Lemma failures_become_500_witness :
  exists r t',
    fetch Sample.parse_URL Sample.unreachable Sample.read_text
      (Sample.GET "https://e.com/") [] = (Ok r, t')
    /\ status r = 500
    /\ body r = Text ("Proxy error: " ++ "Network connection lost.")
    /\ get "Content-Type" (headers r) = Some "text/plain;charset=UTF-8"
    /\ has_cors_headers r.
Proof.
  apply (proj1 (proj2 (failures_become_500 Sample.parse_URL
                         Sample.unreachable Sample.read_text
                         (Sample.GET "https://e.com/") []))
           "https://e.com/" "Network connection lost.").
  - discriminate.
  - reflexivity.
  - discriminate.
  - right. split; [now eexists | reflexivity].
Defined.

(** The claim C7 as it is written fails on a preflight: the [url]
    parameter does not parse, and the status is 200.  It fails on an empty
    parameter too, which gets the status 400. *)
Lemma unparsable_url_without_500 :
  (Sample.parse_URL "not a url" = Throw "Invalid URL"
   /\ exists r,
       fetch Sample.parse_URL Sample.unreachable Sample.read_text
         (Sample.OPTIONS "not a url") [] = (Ok r, [])
       /\ status r = 200 /\ status r <> 500 /\ body r = Null)
  /\ (Sample.parse_URL "" = Throw "Invalid URL"
      /\ exists r,
          fetch Sample.parse_URL Sample.unreachable Sample.read_text
            (Sample.GET "") [] = (Ok r, [])
          /\ status r = 400 /\ status r <> 500
          /\ body r = Text "Missing url parameter").
Proof.
  split; (split; [reflexivity |]); eexists; (split; [reflexivity |]);
    repeat split; discriminate.
Qed.

Lemma content_type_dispatch_witness :
  exists r,
    fetch Sample.parse_URL (Sample.serve Sample.png) Sample.read_text
      (Sample.GET "https://e.com/logo.png") []
    = (Ok r, [("https://e.com/logo.png",
               fetch_headers (Sample.GET "https://e.com/logo.png"))])
    /\ body r = Stream "PNG".
Proof.
  eexists.
  refine (proj1 (proj2 (proj2 (content_type_dispatch
    Sample.parse_URL (Sample.serve Sample.png) Sample.read_text
    (Sample.GET "https://e.com/logo.png") [] "https://e.com/logo.png"
    "https:" "e.com" Sample.png _ _ _ _ _))) _ _ _ _);
    try reflexivity; discriminate.
Defined.

(** The claim C3 as it is written fails on a content type in upper case:
    the value lower-cased contains [text/html], yet the body is passed on as
    it came and not rewritten. *)
Lemma upper_case_content_type_not_rewritten :
  includes (toLowerCase "TEXT/HTML; charset=utf-8") "text/html" = true
  /\ exists r t',
      fetch Sample.parse_URL (Sample.serve Sample.shouting_page)
        Sample.read_text (Sample.GET "https://e.com/") [] = (Ok r, t')
      /\ body r = Stream "<a href='/next'>next</a>"
      /\ body r
         <> Text (rewriteHtml "<a href='/next'>next</a>" "https://e.com")
      /\ rewriteHtml "<a href='/next'>next</a>" "https://e.com"
         = "<a href=" ++ chr dquote ++ PROXY_URL
           ++ "/?url=https%3A%2F%2Fe.com%2Fnext" ++ chr dquote
           ++ ">next</a>".
Proof.
  split; [reflexivity |].
  eexists; eexists; split; [reflexivity |].
  split; [reflexivity |]. split; [discriminate |].
  vm_compute. reflexivity.
Qed.

Lemma rewriteCss_rewrites_tokens_witness :
  rewriteCss ("URL('x.png')" ++ "}") "https://e.com"
  = "url(" ++ chr dquote ++ proxyUrl "x.png" "https://e.com" ++ chr dquote
    ++ ")" ++ rewriteCss "}" "https://e.com".
Proof.
  apply (proj1 rewriteCss_rewrites_tokens "URL('x.png')" "x.png" "}"
           "https://e.com").
  - exists "URL", "'", "'". repeat split.
    + right. now right.
    + right. now right.
    + discriminate.
  - reflexivity.
Defined.

(** The claim C5 as it is written fails for a quoted argument that holds
    what the pattern keeps out of an argument.  With a quote of the other
    kind inside, or with white space between the parentheses and the quotes,
    no token is found and the text stays as it was, its reference not
    proxied; with a closing parenthesis inside, the token ends there, and
    what is proxied is the argument cut short, the rest of it left behind
    the rewritten token. *)
Lemma quoted_arguments_not_rewritten :
  rewriteCss ("a{background:url(" ++ chr dquote ++ "/it's.png" ++ chr dquote
              ++ ")}") "https://e.com"
  = "a{background:url(" ++ chr dquote ++ "/it's.png" ++ chr dquote ++ ")}"
  /\ startsWith "/it's.png" "data:" = false
  /\ rewriteCss ("a{background:url( " ++ chr dquote ++ "/bg.png"
                 ++ chr dquote ++ " )}") "https://e.com"
     = "a{background:url( " ++ chr dquote ++ "/bg.png" ++ chr dquote ++ " )}"
  /\ rewriteCss ("a{background:url(" ++ chr dquote ++ "/a(1).png"
                 ++ chr dquote ++ ")}") "https://e.com"
     = "a{background:url(" ++ chr dquote ++ PROXY_URL
       ++ "/?url=https%3A%2F%2Fe.com%2Fa(1" ++ chr dquote ++ ").png"
       ++ chr dquote ++ ")}"
  /\ proxyUrl "/a(1).png" "https://e.com"
     = PROXY_URL ++ "/?url=https%3A%2F%2Fe.com%2Fa(1).png".
Proof. repeat split; vm_compute; reflexivity. Qed.

Lemma guarded_references_unchanged_witness :
  rewrite_attrs ("href='#top'" ++ ">top</a>") "https://e.com"
  = "href='#top'" ++ rewrite_attrs ">top</a>" "https://e.com".
Proof.
  apply (proj1 guarded_references_unchanged "href='#top'" "href" "#top"
           ">top</a>" "https://e.com").
  - exists squote, squote. repeat split.
    + now right.
    + discriminate.
  - right. right. now exists "top".
Defined.

(** The claim C4 as it is written fails in the CSS rewriter, which guards
    [data:] alone, and in the replacement of [srcset], which has no guard:
    a fragment and a [javascript:] argument of [url(...)] are rewritten, and
    so is a [data:] candidate of a [srcset].  It fails, too, where the value
    holds a quote of the other kind: the patterns end the value there, and
    what follows inside a [javascript:] attribute or a quoted [data:]
    argument is rewritten like any other text. *)
Lemma fragment_and_data_rewritten :
  rewriteCss "a{filter:url(#blur)}" "https://e.com"
  = "a{filter:url(" ++ chr dquote ++ PROXY_URL
    ++ "/?url=https%3A%2F%2Fe.com%2F%23blur" ++ chr dquote ++ ")}"
  /\ rewriteCss "a{filter:url(#blur)}" "https://e.com"
     <> "a{filter:url(#blur)}"
  /\ rewriteCss "url(javascript:void)" "https://e.com"
     <> "url(javascript:void)"
  /\ rewriteHtml "<img srcset='data:image/gif;base64,R0lGOD 1x'>"
       "https://e.com"
     = "<img srcset=" ++ chr dquote ++ PROXY_URL
       ++ "/?url=https%3A%2F%2Fe.com%2Fdata%3Aimage%2Fgif%3Bbase64, "
       ++ PROXY_URL ++ "/?url=https%3A%2F%2Fe.com%2FR0lGOD 1x" ++ chr dquote
       ++ ">"
  /\ rewriteHtml "<img srcset='data:image/gif;base64,R0lGOD 1x'>"
       "https://e.com"
     <> "<img srcset='data:image/gif;base64,R0lGOD 1x'>"
  /\ rewrite_attrs
       ("<a href=" ++ chr dquote ++ "javascript:go('a'); x.src='/b.png'"
        ++ chr dquote ++ ">")
       "https://e.com"
     = "<a href=" ++ chr dquote ++ "javascript:go('a'); x.src="
       ++ chr dquote ++ PROXY_URL ++ "/?url=https%3A%2F%2Fe.com%2Fb.png"
       ++ chr dquote ++ chr dquote ++ ">"
  /\ rewriteCss
       ("a{background:url(" ++ chr dquote
        ++ "data:image/svg+xml,<svg style='fill:url(/x.png)'/>"
        ++ chr dquote ++ ")}")
       "https://e.com"
     = "a{background:url(" ++ chr dquote
       ++ "data:image/svg+xml,<svg style='fill:url(" ++ chr dquote
       ++ PROXY_URL ++ "/?url=https%3A%2F%2Fe.com%2Fx.png" ++ chr dquote
       ++ ")'/>" ++ chr dquote ++ ")}".
Proof.
  repeat split; try (vm_compute; reflexivity); vm_compute; discriminate.
Qed.

Lemma cleanHeaders_sanitizes_witness :
  get "x-frame-options"
    (cleanHeaders
       [("content-type", "text/html"); ("x-frame-options", "DENY");
        ("access-control-allow-origin", "https://e.com")]) = None
  /\ get "content-type"
       (cleanHeaders
          [("content-type", "text/html"); ("x-frame-options", "DENY");
           ("access-control-allow-origin", "https://e.com")])
     = Some "text/html"
  /\ get "Access-Control-Allow-Origin"
       (cleanHeaders
          [("content-type", "text/html"); ("x-frame-options", "DENY");
           ("access-control-allow-origin", "https://e.com")])
     = Some "*".
Proof.
  assert (Hset : header_set
                   [("content-type", "text/html"); ("x-frame-options", "DENY");
                    ("access-control-allow-origin", "https://e.com")]).
  { unfold header_set. simpl.
    repeat (apply NoDup_cons; [simpl; intuition discriminate |]).
    apply NoDup_nil. }
  destruct (cleanHeaders_sanitizes
              [("content-type", "text/html"); ("x-frame-options", "DENY");
               ("access-control-allow-origin", "https://e.com")])
    as (Hstrip & Hcors & _ & Hkeep & _).
  split; [apply Hstrip; reflexivity |].
  split; [apply (Hkeep Hset); [simpl; tauto | reflexivity | reflexivity] |].
  exact Hcors.
Defined.



(** * Beyond the claims *)

Import Query Frontend Props.

(** ** More on the header sanitizer *)

Lemma names_filter (p : string * string -> bool) (h : Headers) (x : string) :
  In x (names (filter p h)) -> In x (names h).
Proof.
  unfold names. rewrite !in_map_iff. intros (kv & E & Hin).
  apply filter_In in Hin. exists kv. tauto.
Qed.

Lemma header_set_filter (p : string * string -> bool) (h : Headers) :
  header_set h -> header_set (filter p h).
Proof.
  unfold header_set. induction h as [|kv h IH]; [trivial |].
  cbn [map filter]. intros H. inversion H as [|? ? Hnotin Hnd]; subst.
  destruct (p kv); [| now apply IH].
  cbn [map]. constructor; [| now apply IH].
  intros Hin. apply Hnotin. exact (names_filter p h _ Hin).
Qed.

Lemma names_set (k v : string) (h : Headers) (x : string) :
  In x (names (set k v h)) -> x = toLowerCase k \/ In x (names h).
Proof.
  induction h as [|[k' v'] h IH]; cbn [set].
  - intros [<- | []]. now left.
  - destruct (same_name k' k) eqn:E.
    + cbn [names map fst]. intros [<- | Hin]; [right; now left |].
      right. right. exact (names_filter _ h _ Hin).
    + cbn [names map fst]. intros [<- | Hin]; [right; now left |].
      destruct (IH Hin) as [-> | H]; [now left | right; now right].
Qed.

Lemma header_set_set (k v : string) (h : Headers) :
  header_set h -> header_set (set k v h).
Proof.
  induction h as [|[k' v'] h IH]; intros H.
  - repeat constructor. intros [].
  - unfold header_set in H. cbn [map fst] in H.
    inversion H as [|? ? Hnotin Hnd]; subst. cbn [set].
    destruct (same_name k' k) eqn:E.
    + unfold header_set. cbn [map fst]. constructor.
      * intros Hin. apply Hnotin. exact (names_filter _ h _ Hin).
      * now apply header_set_filter.
    + unfold header_set. cbn [map fst]. constructor; [| now apply IH].
      intros Hin. destruct (names_set _ _ _ _ Hin) as [Ek | Hin'].
      * apply same_name_eq in Ek. congruence.
      * now apply Hnotin.
Qed.

Lemma header_set_copy (acc : Headers) (kv : string * string) :
  header_set acc -> header_set (copy_header acc kv).
Proof.
  intros H. rewrite copy_header_cases.
  destruct (is_stripped (fst kv)); [exact H | now apply header_set_set].
Qed.

Lemma header_set_loop (h acc : Headers) :
  header_set acc -> header_set (fold_left copy_header h acc).
Proof.
  revert acc. induction h as [|kv h IH]; intros acc H; [exact H |].
  cbn [fold_left]. now apply IH, header_set_copy.
Qed.

(** X1.  What [cleanHeaders] returns is a header set, whatever it was given:
    no name stands twice in it, in whatever letter case. *)
Theorem cleanHeaders_no_duplicates (h : Headers) :
  header_set (cleanHeaders h).
Proof.
  rewrite cleanHeaders_loop. apply header_set_set, header_set_loop.
  constructor.
Qed.

(** The entries of the result carry no stripped name. *)
Lemma unstripped_set (k v : string) (h : Headers) :
  is_stripped k = false -> unstripped h -> unstripped (set k v h).
Proof.
  intros Hk. induction h as [|[k' v'] h IH]; intros H kv; cbn [set].
  - intros [<- | []]. exact Hk.
  - assert (Hh : unstripped h) by (intros x Hx; apply H; now right).
    destruct (same_name k' k) eqn:E.
    + intros [<- | Hin]; [exact (H (k', v') (or_introl eq_refl)) |].
      apply filter_In in Hin. now apply Hh.
    + intros [<- | Hin]; [exact (H (k', v') (or_introl eq_refl)) |].
      now apply (IH Hh).
Qed.

Lemma unstripped_loop (h acc : Headers) :
  unstripped acc -> unstripped (fold_left copy_header h acc).
Proof.
  revert acc. induction h as [|kv h IH]; intros acc H; [exact H |].
  cbn [fold_left]. apply IH. rewrite copy_header_cases.
  destruct (is_stripped (fst kv)) eqn:E; [exact H |].
  now apply unstripped_set.
Qed.

Lemma unstripped_cleanHeaders (h : Headers) : unstripped (cleanHeaders h).
Proof.
  rewrite cleanHeaders_loop. apply unstripped_set; [reflexivity |].
  apply unstripped_loop. intros kv [].
Qed.

Lemma set_fresh (k v : string) (h : Headers) :
  (forall kv, In kv h -> same_name (fst kv) k = false) ->
  set k v h = (h ++ [(k, v)])%list.
Proof.
  induction h as [|[k' v'] h IH]; intros H; [reflexivity |].
  cbn [set app]. pose proof (H (k', v') (or_introl eq_refl)) as E.
  cbn [fst] in E. rewrite E.
  rewrite IH; [reflexivity |]. intros kv Hin. apply H. now right.
Qed.

Lemma loop_of_set (h acc : Headers) :
  header_set (acc ++ h)%list -> unstripped h ->
  fold_left copy_header h acc = (acc ++ h)%list.
Proof.
  revert acc. induction h as [|[k v] h IH]; intros acc Hset Hun.
  - now rewrite app_nil_r.
  - cbn [fold_left]. rewrite copy_header_cases.
    rewrite (Hun (k, v) (or_introl eq_refl)). cbn [fst snd].
    rewrite set_fresh.
    + rewrite IH; [now rewrite <- app_assoc | now rewrite <- app_assoc |].
      intros kv Hin. apply Hun. now right.
    + intros [k' v'] Hin. cbn [fst].
      destruct (same_name k' k) eqn:E; [| reflexivity].
      exfalso. unfold header_set in Hset. rewrite map_app in Hset.
      apply NoDup_remove_2 in Hset. apply Hset.
      apply in_or_app. left. apply same_name_eq in E. cbn [fst]. rewrite <- E.
      now apply (in_map (fun kv => toLowerCase (fst kv)) acc (k', v')).
Qed.

Lemma filter_all (p : string * string -> bool) (h : Headers) :
  (forall kv, In kv h -> p kv = true) -> filter p h = h.
Proof.
  induction h as [|kv h IH]; intros H; [reflexivity |].
  cbn [filter]. rewrite (H kv (or_introl eq_refl)), IH; [reflexivity |].
  intros x Hx. apply H. now right.
Qed.

Lemma header_set_other (k v : string) (h : Headers) (name : string) :
  header_set ((k, v) :: h) -> same_name k name = true ->
  forall kv, In kv h -> same_name (fst kv) name = false.
Proof.
  unfold header_set. cbn [map fst]. intros H E kv Hin.
  inversion H as [|? ? Hnotin _]; subst.
  destruct (same_name (fst kv) name) eqn:E2; [| reflexivity].
  elim Hnotin. apply same_name_eq in E, E2. rewrite E, <- E2.
  now apply (in_map (fun kv => toLowerCase (fst kv))).
Qed.

Lemma set_same_value (name v : string) (h : Headers) :
  header_set h -> get name h = Some v -> set name v h = h.
Proof.
  induction h as [|[k v'] h IH]; intros Hset Hget; [discriminate |].
  cbn [set]. destruct (same_name k name) eqn:E.
  - pose proof (header_set_other _ _ _ _ Hset E) as Hothers.
    unfold get in Hget. cbn [filter fst] in Hget. rewrite E in Hget.
    assert (Hnone : filter (fun kv => same_name (fst kv) name) h = []).
    { clear -Hothers. induction h as [|kv h IH]; [reflexivity |].
      cbn [filter]. rewrite (Hothers kv (or_introl eq_refl)).
      apply IH. intros x Hx. apply Hothers. now right. }
    rewrite Hnone in Hget. cbn in Hget. injection Hget as ->.
    f_equal. apply filter_all. intros kv Hin. now rewrite (Hothers kv Hin).
  - f_equal. apply IH.
    + unfold header_set in *. cbn [map] in Hset. now inversion Hset.
    + unfold get in *. cbn [filter fst] in Hget. now rewrite E in Hget.
Qed.

(** X2.  Sanitizing twice is sanitizing once. *)
Theorem cleanHeaders_idempotent (h : Headers) :
  cleanHeaders (cleanHeaders h) = cleanHeaders h.
Proof.
  assert (Hset : header_set (cleanHeaders h)).
  { rewrite cleanHeaders_loop. apply header_set_set, header_set_loop.
    constructor. }
  rewrite (cleanHeaders_loop (cleanHeaders h)).
  rewrite (loop_of_set (cleanHeaders h) []).
  - cbn [app]. apply set_same_value; [exact Hset |].
    rewrite cleanHeaders_loop. apply get_set_same.
  - exact Hset.
  - apply unstripped_cleanHeaders.
Qed.

(** ** More on the request handler *)

Lemma get_name_case (a b : string) (h : Headers) :
  toLowerCase a = toLowerCase b -> get a h = get b h.
Proof. intros E. unfold get, same_name. now rewrite E. Qed.

Lemma cleanHeaders_get_origin (h : Headers) :
  get "Access-Control-Allow-Origin" (cleanHeaders h) = Some "*".
Proof. rewrite cleanHeaders_loop. apply get_set_same. Qed.

Lemma cleanHeaders_get_stripped (h : Headers) (name : string) :
  is_stripped name = true -> get name (cleanHeaders h) = None.
Proof.
  intros Hn. rewrite cleanHeaders_loop, get_set_other.
  - now rewrite loop_stripped.
  - destruct (same_name _ name) eqn:E; [| reflexivity].
    rewrite <- (is_stripped_same_name _ _ E) in Hn. discriminate.
Qed.

Lemma get_app_other (name k v : string) (h : Headers) :
  same_name k name = false -> get name (h ++ [(k, v)])%list = get name h.
Proof.
  intros E. unfold get. rewrite filter_app. cbn [filter fst]. rewrite E.
  now rewrite app_nil_r.
Qed.

(** The headers of a built response are those it was given, and a content
    type when a text came without one. *)
Lemma new_Response_get (b : Body) (st : nat) (h : Headers) (r : Response)
  (name v : string) :
  new_Response b st h = Ok r ->
  get name h = Some v -> get name (headers r) = Some v.
Proof.
  unfold new_Response. destruct (negb _); [discriminate |].
  destruct b as [| txt | s]; try destruct (null_body_status st);
    try discriminate; intros [= <-]; cbn [headers]; trivial.
  destruct (get "Content-Type" h) eqn:E; [trivial |].
  intros Hget. rewrite get_app_other; [exact Hget |].
  destruct (same_name "content-type" name) eqn:En; [| reflexivity].
  apply same_name_eq in En.
  rewrite (get_name_case "Content-Type" name) in E by exact En. congruence.
Qed.

Lemma new_Response_get_none (b : Body) (st : nat) (h : Headers) (r : Response)
  (name : string) :
  new_Response b st h = Ok r ->
  same_name "content-type" name = false ->
  get name h = None -> get name (headers r) = None.
Proof.
  unfold new_Response. destruct (negb _); [discriminate |].
  destruct b as [| txt | s]; try destruct (null_body_status st);
    try discriminate; intros [= <-]; cbn [headers]; trivial.
  destruct (get "Content-Type" h) eqn:E; [trivial |].
  intros En Hget. now rewrite get_app_other.
Qed.

Lemma unstripped_get (h : Headers) (name : string) :
  unstripped h -> is_stripped name = true -> get name h = None.
Proof.
  intros Hun Hn. unfold get.
  assert (E : filter (fun kv => same_name (fst kv) name) h = []).
  { induction h as [|kv h IH]; [reflexivity |]. cbn [filter].
    destruct (same_name (fst kv) name) eqn:E.
    - rewrite <- (is_stripped_same_name _ _ E) in Hn.
      rewrite (Hun kv (or_introl eq_refl)) in Hn. discriminate.
    - apply IH. intros x Hx. apply Hun. now right. }
  now rewrite E.
Qed.

Lemma unstripped_cors :
  unstripped corsHeaders
  /\ unstripped
       (corsHeaders ++ [("content-type", "text/plain;charset=UTF-8")])%list.
Proof.
  split; intros kv Hin; cbn in Hin;
    repeat (destruct Hin as [<- | Hin]; [reflexivity |]); contradiction.
Qed.

Section HandlerMore.

Variable parse_URL : string -> result (string * string).
Variable global_fetch : string -> Headers -> result Response.
Variable read_text : Body -> result string.

(** What the [try] block does with the network: nothing when the target
    does not parse, one fetch of the target otherwise. *)
Lemma proxy_target_trace (request : Request) (u : string) (t t' : Trace)
  (res : result Response) :
  proxy_target parse_URL global_fetch read_text request u t = (res, t') ->
  (t' = t /\ exists message, parse_URL u = Throw message)
  \/ (t' = (t ++ [(u, fetch_headers request)])%list
      /\ exists o, parse_URL u = Ok o).
Proof.
  unfold proxy_target, bind, lift, await_fetch.
  destruct (parse_URL u) as [o | message].
  - intros H. right. split; [| now exists o].
    destruct (global_fetch u (fetch_headers request)) as [up | m].
    + destruct (includes _ "text/html");
        [| destruct (includes _ "text/css")];
        try destruct (read_text (body up)); now injection H.
    + now injection H.
  - intros [= _ <-]. left. split; [reflexivity | now exists message].
Qed.

(** A response that leaves the [try] block is built with the status of
    the upstream response and its headers sanitized. *)
Lemma proxy_target_ok (request : Request) (u : string) (t t' : Trace)
  (r : Response) :
  proxy_target parse_URL global_fetch read_text request u t = (Ok r, t') ->
  exists up b,
    global_fetch u (fetch_headers request) = Ok up
    /\ new_Response b (status up) (cleanHeaders (headers up)) = Ok r.
Proof.
  unfold proxy_target, bind, lift, await_fetch.
  destruct (parse_URL u) as [o | message]; [| discriminate].
  destruct (global_fetch u (fetch_headers request)) as [up | m];
    [| discriminate].
  intros H. exists up.
  destruct (includes _ "text/html");
    [| destruct (includes _ "text/css")];
    try (destruct (read_text (body up)); [| discriminate]);
    injection H as H _; eexists; split; try reflexivity; exact H.
Qed.

(** X3.  Every response, of every path, allows any origin and carries none
    of the headers that forbid framing. *)
Theorem every_response_is_frameable (request : Request) (t : Trace) :
  exists r t',
    fetch parse_URL global_fetch read_text request t = (Ok r, t')
    /\ get "Access-Control-Allow-Origin" (headers r) = Some "*"
    /\ forall name, is_stripped name = true -> get name (headers r) = None.
Proof.
  destruct unstripped_cors as [Hc Hct].
  unfold fetch.
  destruct (String.eqb (method request) "OPTIONS").
  { eexists; eexists. split; [reflexivity |]. split; [reflexivity |].
    intros name Hn. now apply unstripped_get. }
  destruct (searchParams_get "url" (searchParams request)) as [[|c u]|].
  1, 3: eexists; eexists; (split; [reflexivity |]); (split; [reflexivity |]);
    intros name Hn; now apply unstripped_get.
  unfold try_catch.
  destruct (proxy_target _ _ _ _ _ t) as [[r | message] t'] eqn:E.
  - exists r, t'. split; [reflexivity |].
    destruct (proxy_target_ok _ _ _ _ _ E) as (up & b & _ & Hr).
    split.
    + apply (new_Response_get _ _ _ _ _ _ Hr), cleanHeaders_get_origin.
    + intros name Hn. apply (new_Response_get_none _ _ _ _ _ Hr).
      * destruct (same_name "content-type" name) eqn:En; [| reflexivity].
        rewrite <- (is_stripped_same_name _ _ En) in Hn. discriminate.
      * now apply cleanHeaders_get_stripped.
  - eexists; eexists. split; [reflexivity |]. split; [reflexivity |].
    intros name Hn. now apply unstripped_get.
Qed.

(** X4.  When the handler fetches, and what.  It makes no upstream fetch for
    a preflight, for a missing or empty [url] parameter and for a target
    that does not parse; for any other request it makes one, of the target
    itself, whatever the upstream answers and whatever becomes of the
    answer.  So no request makes more than one.  The fetch carries the
    Accept header of the request when it has one that is not empty and
    [*/*] when it has not. *)
Theorem at_most_one_upstream_fetch (request : Request) (t : Trace) :
  (method request = "OPTIONS" ->
   snd (fetch parse_URL global_fetch read_text request t) = t)
  /\ (searchParams_get "url" (searchParams request) = None
      \/ searchParams_get "url" (searchParams request) = Some "" ->
      snd (fetch parse_URL global_fetch read_text request t) = t)
  /\ (forall u message,
        searchParams_get "url" (searchParams request) = Some u ->
        parse_URL u = Throw message ->
        snd (fetch parse_URL global_fetch read_text request t) = t)
  /\ (forall u o,
        method request <> "OPTIONS" ->
        searchParams_get "url" (searchParams request) = Some u ->
        u <> "" ->
        parse_URL u = Ok o ->
        snd (fetch parse_URL global_fetch read_text request t)
        = (t ++ [(u, fetch_headers request)])%list)
  /\ (snd (fetch parse_URL global_fetch read_text request t) = t
      \/ exists u o,
          snd (fetch parse_URL global_fetch read_text request t)
          = (t ++ [(u, fetch_headers request)])%list
          /\ method request <> "OPTIONS"
          /\ searchParams_get "url" (searchParams request) = Some u
          /\ u <> ""
          /\ parse_URL u = Ok o)
  /\ (forall a,
        get "Accept" (request_headers request) = Some a -> a <> "" ->
        get "Accept" (fetch_headers request) = Some a)
  /\ (get "Accept" (request_headers request) = None
      \/ get "Accept" (request_headers request) = Some "" ->
      get "Accept" (fetch_headers request) = Some "*/*").
Proof.
  assert (Htry : forall u,
             snd (try_catch
                    (proxy_target parse_URL global_fetch read_text request u)
                    (fun message =>
                       lift (new_Response (Text ("Proxy error: " ++ message))
                               500 corsHeaders)) t)
             = snd (proxy_target parse_URL global_fetch read_text request u t)).
  { intros u. unfold try_catch.
    destruct (proxy_target _ _ _ _ _ t) as [[r | message] t']; reflexivity. }
  assert (Hparse : forall u,
             (forall message,
                 parse_URL u = Throw message ->
                 snd (proxy_target parse_URL global_fetch read_text request u t)
                 = t)
             /\ (forall o,
                   parse_URL u = Ok o ->
                   snd (proxy_target parse_URL global_fetch read_text request
                          u t)
                   = (t ++ [(u, fetch_headers request)])%list)).
  { intros u.
    destruct (proxy_target parse_URL global_fetch read_text request u t)
      as [res t'] eqn:E.
    destruct (proxy_target_trace _ _ _ _ _ E) as [[-> [m Hm]] | [-> [o Ho]]];
      split; intros x Hx; try reflexivity; rewrite Hx in *; discriminate. }
  assert (H1 : method request = "OPTIONS" ->
               snd (fetch parse_URL global_fetch read_text request t) = t).
  { intros Hm. unfold fetch. now rewrite Hm. }
  assert (H2 : searchParams_get "url" (searchParams request) = None
               \/ searchParams_get "url" (searchParams request) = Some "" ->
               snd (fetch parse_URL global_fetch read_text request t) = t).
  { intros H. unfold fetch.
    destruct (String.eqb (method request) "OPTIONS"); [reflexivity |].
    destruct H as [-> | ->]; reflexivity. }
  assert (H3 : forall u message,
             searchParams_get "url" (searchParams request) = Some u ->
             parse_URL u = Throw message ->
             snd (fetch parse_URL global_fetch read_text request t) = t).
  { intros u message Hu Hp. unfold fetch.
    destruct (String.eqb (method request) "OPTIONS"); [reflexivity |].
    rewrite Hu. destruct u as [|c u]; [reflexivity |].
    rewrite Htry. exact (proj1 (Hparse _) _ Hp). }
  assert (H4 : forall u o,
             method request <> "OPTIONS" ->
             searchParams_get "url" (searchParams request) = Some u ->
             u <> "" ->
             parse_URL u = Ok o ->
             snd (fetch parse_URL global_fetch read_text request t)
             = (t ++ [(u, fetch_headers request)])%list).
  { intros u o Hm Hu Hne Hp. unfold fetch.
    rewrite (eqb_method_false _ Hm), Hu.
    destruct u as [|c u]; [now elim Hne |].
    rewrite Htry. exact (proj2 (Hparse _) _ Hp). }
  split; [exact H1 |]. split; [exact H2 |]. split; [exact H3 |].
  split; [exact H4 |]. split; [| split].
  - destruct (String.eqb (method request) "OPTIONS") eqn:Em.
    { left. apply H1. now apply String.eqb_eq. }
    apply String.eqb_neq in Em.
    destruct (searchParams_get "url" (searchParams request)) as [u|] eqn:Eu;
      [| left; apply H2; now left].
    destruct u as [|c u]; [left; apply H2; now right |].
    destruct (parse_URL (String c u)) as [o | message] eqn:Ep.
    + right. exists (String c u), o.
      split; [apply (H4 _ o Em eq_refl); [discriminate | exact Ep] |].
      repeat split; trivial. discriminate.
    + left. exact (H3 _ message eq_refl Ep).
  - intros a Ha Hne. unfold fetch_headers. rewrite Ha.
    destruct a; [now elim Hne | reflexivity].
  - intros [H | H]; unfold fetch_headers; now rewrite H.
Qed.

(** X5.  A response other than the one of the [catch] clause carries the
    status of the upstream response, and every header of the sanitized
    upstream headers with its value. *)
Theorem upstream_status_preserved (request : Request) (t t' : Trace)
  (u : string) (r : Response) :
  method request <> "OPTIONS" ->
  searchParams_get "url" (searchParams request) = Some u ->
  u <> "" ->
  fetch parse_URL global_fetch read_text request t = (Ok r, t') ->
  (status r = 500 /\ exists message, body r = Text ("Proxy error: " ++ message))
  \/ exists up,
      global_fetch u (fetch_headers request) = Ok up
      /\ status r = status up
      /\ forall name v,
          get name (cleanHeaders (headers up)) = Some v ->
          get name (headers r) = Some v.
Proof.
  intros Hm Hu Hne. unfold fetch.
  rewrite (eqb_method_false _ Hm), Hu.
  destruct u as [|c u]; [now elim Hne |].
  unfold try_catch.
  destruct (proxy_target _ _ _ _ _ t) as [[r0 | message] t0] eqn:E.
  - intros [= <- <-]. right.
    destruct (proxy_target_ok _ _ _ _ _ E) as (up & b & Hf & Hr).
    exists up. split; [exact Hf |]. split.
    + now apply new_Response_ok in Hr.
    + intros name v. exact (new_Response_get _ _ _ _ name v Hr).
  - intros [= <- <-]. left. split; [reflexivity | now exists message].
Qed.

End HandlerMore.

Lemma at_most_one_upstream_fetch_witness :
  snd (fetch Sample.parse_URL Sample.unreachable Sample.read_text
         (Sample.GET "https://e.com/") [])
  = [("https://e.com/", fetch_headers (Sample.GET "https://e.com/"))]
  /\ snd (fetch Sample.parse_URL Sample.unreachable Sample.read_text
            (Sample.GET "ftp:") [])
     = [].
Proof.
  split.
  - apply (proj1 (proj2 (proj2 (proj2
             (at_most_one_upstream_fetch Sample.parse_URL Sample.unreachable
                Sample.read_text (Sample.GET "https://e.com/") []))))
             "https://e.com/" ("https:", "e.com")).
    + discriminate.
    + reflexivity.
    + discriminate.
    + reflexivity.
  - apply (proj1 (proj2 (proj2
             (at_most_one_upstream_fetch Sample.parse_URL Sample.unreachable
                Sample.read_text (Sample.GET "ftp:") [])))
             "ftp:" "Invalid URL").
    + reflexivity.
    + reflexivity.
Defined.

Lemma upstream_status_preserved_witness :
  exists up,
    Sample.serve Sample.png "https://e.com/logo.png"
      (fetch_headers (Sample.GET "https://e.com/logo.png")) = Ok up
    /\ status (mkResponse 200
                 (cleanHeaders [("content-type", "image/png")]) (Stream "PNG"))
       = status up
    /\ forall name v,
        get name (cleanHeaders (headers up)) = Some v ->
        get name (headers (mkResponse 200
                 (cleanHeaders [("content-type", "image/png")]) (Stream "PNG")))
        = Some v.
Proof.
  destruct (upstream_status_preserved Sample.parse_URL
              (Sample.serve Sample.png) Sample.read_text
              (Sample.GET "https://e.com/logo.png") []
              [("https://e.com/logo.png",
                fetch_headers (Sample.GET "https://e.com/logo.png"))]
              "https://e.com/logo.png"
              (mkResponse 200 (cleanHeaders [("content-type", "image/png")])
                 (Stream "PNG")))
    as [[H _] | H].
  - discriminate.
  - reflexivity.
  - discriminate.
  - reflexivity.
  - discriminate H.
  - exact H.
Defined.

(** ** More on the URL resolver *)

Lemma proxyUrl_resolve (r b : string) :
  proxyUrl r b = proxied (encodeURIComponent (resolve r b)).
Proof. reflexivity. Qed.

Lemma append_inj_l (a x y : string) : a ++ x = a ++ y -> x = y.
Proof.
  induction a as [|c a IH]; cbn; [trivial |]. intros [= H]. now apply IH.
Qed.

Lemma encodeURIComponent_injective (u v : string) :
  encodeURIComponent u = encodeURIComponent v -> u = v.
Proof.
  intros H. rewrite <- (percent_decode_encode u), <- (percent_decode_encode v).
  now rewrite H.
Qed.

(** X6.  The proxied URL tells the absolute URLs apart: two references get the
    same proxied URL only when they resolve to the same absolute URL. *)
Theorem proxyUrl_injective (r b r' b' : string) :
  proxyUrl r b = proxyUrl r' b' <-> resolve r b = resolve r' b'.
Proof.
  rewrite !proxyUrl_resolve. unfold proxied. split.
  - intros H. apply append_inj_l, append_inj_l in H.
    now apply encodeURIComponent_injective.
  - now intros ->.
Qed.

Lemma component_char_markup_safe (c : ascii) :
  component_char c = true -> markup_safe c = true.
Proof.
  assert (H : forall c, implb (component_char c) (markup_safe c) = true).
  { apply forall_ascii. vm_compute. reflexivity. }
  specialize (H c). destruct (component_char c); [exact (fun _ => H) | discriminate].
Qed.

(** X7.  A proxied URL holds no double quote, no angle bracket, no ampersand,
    no space and no comma, whatever the reference and the base: it can end
    neither the attribute nor the quoted [url(...)] it is written into, and it
    stays one candidate of a [srcset]. *)
Theorem proxyUrl_markup_safe (r b : string) :
  all_chars markup_safe (proxyUrl r b) = true.
Proof.
  apply proxyUrl_chars; [vm_compute; reflexivity |].
  apply component_char_markup_safe.
Qed.

(** A proxied URL begins with [https://], so that resolving it again
    takes it as it is, whatever the base, and none of the guards of the
    rewriters holds for it. *)
Lemma proxyUrl_of_proxied (r b b' : string) :
  proxyUrl (proxyUrl r b) b' = proxied (encodeURIComponent (proxyUrl r b))
  /\ startsWith (proxyUrl r b) "data:" = false
  /\ startsWith (proxyUrl r b) "javascript:" = false
  /\ startsWith (proxyUrl r b) "#" = false.
Proof. repeat split. Qed.

Lemma resolve_not_empty (r b : string) : resolve r b <> "".
Proof.
  unfold resolve, startsWith.
  destruct (prefix "//" r) eqn:H2; [discriminate |].
  destruct (prefix "/" r) eqn:H1.
  - apply prefix_begins in H1. destruct H1 as [t ->].
    destruct b; discriminate.
  - destruct (prefix "http" r) eqn:Hh.
    + apply prefix_begins in Hh. destruct Hh as [t ->]. discriminate.
    + destruct b; discriminate.
Qed.

(** ** More on the rewriters *)

Lemma rewrite_attrs_copy (c : ascii) (s b : string) :
  (forall tok attr value rest,
      attr_token tok attr value -> String c s <> tok ++ rest) ->
  rewrite_attrs (String c s) b = String c (rewrite_attrs s b).
Proof.
  intros H. unfold rewrite_attrs.
  apply (scan_copy attr_re (rewrite_attr b)
           (fun tok caps =>
              exists attr value,
                attr_token tok attr value /\ caps = [attr; value])).
  - intros s0 caps rest. apply attr_exec_token.
  - intros tok caps rest (attr & value & Ht & _). now apply (H tok attr value rest).
Qed.

Lemma rewrite_srcsets_copy (c : ascii) (s b : string) :
  (forall tok value rest, srcset_token tok value -> String c s <> tok ++ rest) ->
  rewrite_srcsets (String c s) b = String c (rewrite_srcsets s b).
Proof.
  intros H. unfold rewrite_srcsets.
  apply (scan_copy srcset_re (rewrite_srcset b)
           (fun tok caps => exists value, srcset_token tok value /\ caps = [value])).
  - intros s0 caps rest. apply srcset_exec_token.
  - intros tok caps rest (value & Ht & _). now apply (H tok value rest).
Qed.



Lemma all_chars_char_in (c : ascii) (s : string) :
  all_chars (fun d => negb (Ascii.eqb d c)) s = true <-> char_in c s = false.
Proof. unfold char_in. now rewrite negb_false_iff. Qed.

Lemma char_in_append (c : ascii) (a b : string) :
  char_in c (a ++ b) = char_in c a || char_in c b.
Proof. unfold char_in. rewrite all_chars_append. now rewrite negb_andb. Qed.

Lemma url_token_paren (tok arg rest : string) :
  url_token tok arg -> char_in "(" (tok ++ rest) = true.
Proof.
  intros (name & q1 & q2 & -> & _).
  rewrite !char_in_append. cbn [char_in]. 
  change (char_in "(" "(") with true. now rewrite !orb_true_r.
Qed.

Lemma attr_token_equals (tok attr value rest : string) :
  attr_token tok attr value -> char_in "=" (tok ++ rest) = true.
Proof.
  intros (q1 & q2 & -> & _).
  rewrite !char_in_append.
  change (char_in "=" "=") with true. now rewrite !orb_true_r.
Qed.

Lemma srcset_token_equals (tok value rest : string) :
  srcset_token tok value -> char_in "=" (tok ++ rest) = true.
Proof.
  intros (name & q1 & q2 & -> & _).
  rewrite !char_in_append.
  change (char_in "=" "=") with true. now rewrite !orb_true_r.
Qed.

Lemma char_in_cons (c d : ascii) (s : string) :
  char_in c (String d s) = false -> char_in c s = false.
Proof.
  unfold char_in. rewrite !negb_false_iff. cbn [all_chars].
  intros H. apply andb_true_iff in H. tauto.
Qed.

(** X9.  The rewriters change nothing in a text in which no match can start: a
    style sheet without an opening parenthesis comes out of [rewriteCss] as
    it went in, and a document without an equals sign comes out of the two
    replacements as it went in, so that [rewriteHtml] does no more to it
    than put the script behind its head tag. *)
Theorem untouched_without_trigger (b : string) :
  (forall css, char_in "(" css = false -> rewriteCss css b = css)
  /\ (forall html,
        char_in "=" html = false ->
        rewrite_attrs html b = html
        /\ rewrite_srcsets html b = html
        /\ rewriteHtml html b = inject_fix html).
Proof.
  assert (Hattrs : forall html,
             char_in "=" html = false -> rewrite_attrs html b = html).
  { induction html as [|c s IH]; [reflexivity |]. intros H.
    rewrite rewrite_attrs_copy, (IH (char_in_cons _ _ _ H)); [reflexivity |].
    intros tok attr value rest Ht E.
    rewrite E, (attr_token_equals _ _ _ _ Ht) in H. discriminate. }
  assert (Hsrcsets : forall html,
             char_in "=" html = false -> rewrite_srcsets html b = html).
  { induction html as [|c s IH]; [reflexivity |]. intros H.
    rewrite rewrite_srcsets_copy, (IH (char_in_cons _ _ _ H)); [reflexivity |].
    intros tok value rest Ht E.
    rewrite E, (srcset_token_equals _ _ _ Ht) in H. discriminate. }
  split.
  - induction css as [|c s IH]; [reflexivity |]. intros H.
    rewrite rewriteCss_copy, (IH (char_in_cons _ _ _ H)); [reflexivity |].
    intros tok arg rest Ht E.
    rewrite E, (url_token_paren _ _ _ Ht) in H. discriminate.
  - intros html H. split; [now apply Hattrs |]. split; [now apply Hsrcsets |].
    unfold rewriteHtml. now rewrite (Hattrs _ H), (Hsrcsets _ H).
Qed.

Lemma untouched_without_trigger_witness :
  rewriteCss "body { color: red }" "https://e.com" = "body { color: red }"
  /\ rewriteHtml "<html><head></head><p>hi</p></html>" "https://e.com"
     = inject_fix "<html><head></head><p>hi</p></html>".
Proof.
  split.
  - apply (proj1 (untouched_without_trigger "https://e.com")). reflexivity.
  - apply (proj2 (untouched_without_trigger "https://e.com")). reflexivity.
Defined.

(** X10.  Every candidate of a rewritten [srcset] begins with the address of
    the proxy; a candidate that is empty or all white space -- the one behind
    a comma at the end is -- becomes the proxied URL of the root of the
    base. *)
Theorem srcset_candidate_goes_through_proxy (b part : string) :
  begins_with (PROXY_URL ++ "/?url=") (rewrite_candidate b part)
  /\ (trim part = "" ->
      rewrite_candidate b part = proxied (encodeURIComponent (b ++ "/"))).
Proof.
  rewrite rewrite_candidate_shape. split.
  - eexists. unfold proxyUrl. rewrite !append_assoc. reflexivity.
  - intros ->. change (split_ws "") with [""]. cbn [hd nth_error descriptor_suffix].
    rewrite append_nil_r. rewrite proxyUrl_resolve. unfold resolve.
    cbn. reflexivity.
Qed.

Lemma srcset_candidate_goes_through_proxy_witness :
  rewrite_candidate "https://e.com" " "
  = proxied (encodeURIComponent ("https://e.com" ++ "/")).
Proof.
  apply (proj2 (srcset_candidate_goes_through_proxy "https://e.com" " ")).
  reflexivity.
Defined.

(** ** From a rewritten reference back to the handler *)

Lemma form_decode_char (c : ascii) (s : string) :
  form_decode ((if unreserved c then chr c else percent c) ++ s)
  = String c (form_decode s).
Proof.
  destruct c as [[] [] [] [] [] [] [] []]; reflexivity.
Qed.

Lemma form_decode_encode (s : string) :
  form_decode (encodeURIComponent s) = s.
Proof.
  induction s as [|c s IH]; [reflexivity |].
  cbn [encodeURIComponent]. rewrite form_decode_char. now rewrite IH.
Qed.

Lemma split_without (sep : ascii) (s : string) :
  char_in sep s = false -> split sep s = [s].
Proof.
  induction s as [|c s IH]; [reflexivity |]. intros H.
  pose proof (char_in_cons _ _ _ H) as Hs.
  unfold char_in in H. rewrite negb_false_iff in H. cbn [all_chars] in H.
  apply andb_true_iff in H. destruct H as [Hc _].
  rewrite negb_true_iff in Hc.
  cbn [split]. rewrite Hc, (IH Hs). reflexivity.
Qed.

Lemma encoded_without (c : ascii) (s : string) :
  component_char c = false -> char_in c (encodeURIComponent s) = false.
Proof.
  intros Hc. apply all_chars_char_in.
  apply (all_chars_impl component_char); [| apply encode_component_chars].
  intros d Hd. rewrite negb_true_iff.
  destruct (Ascii.eqb d c) eqn:E; [| reflexivity].
  apply Ascii.eqb_eq in E. subst d. rewrite Hd in Hc. discriminate.
Qed.

Lemma searchParams_of_encoded (u : string) :
  searchParams_of ("url=" ++ encodeURIComponent u) = [("url", u)].
Proof.
  unfold searchParams_of.
  rewrite split_without.
  - cbn [filter String.eqb append Ascii.eqb Bool.eqb negb map].
    unfold pair_of. cbn [append before behind Ascii.eqb Bool.eqb].
    cbn [form_decode Ascii.eqb Bool.eqb]. now rewrite form_decode_encode.
  - rewrite char_in_append, (encoded_without "&" u eq_refl). reflexivity.
Qed.

Lemma proxyUrl_query (r b query : string) :
  proxyUrl r b = PROXY_URL ++ "/?" ++ query ->
  query = "url=" ++ encodeURIComponent (resolve r b).
Proof.
  rewrite proxyUrl_resolve. unfold proxied. intros H.
  apply append_inj_l in H.
  change ("/?url=" ++ encodeURIComponent (resolve r b))
    with ("/?" ++ "url=" ++ encodeURIComponent (resolve r b)) in H.
  apply append_inj_l in H. now symmetry.
Qed.

Section Closure.

Variable parse_URL : string -> result (string * string).
Variable global_fetch : string -> Headers -> result Response.
Variable read_text : Body -> result string.

(** X11.  The addresses [proxyUrl] writes into a page lead back to the
    handler with the absolute URL as the target: the query of such an
    address has the one parameter [url], whose decoded value is the absolute
    URL, never empty; a request other than a preflight with these parameters
    makes one fetch, of the absolute URL, when that parses, and is answered
    with status 500 without a fetch when it does not. *)
Theorem rewritten_reference_reaches_target (r b query : string)
  (request : Request) (t : Trace) :
  proxyUrl r b = PROXY_URL ++ "/?" ++ query ->
  method request <> "OPTIONS" ->
  searchParams request = searchParams_of query ->
  searchParams request = [("url", resolve r b)]
  /\ resolve r b <> ""
  /\ (forall o,
        parse_URL (resolve r b) = Ok o ->
        snd (fetch parse_URL global_fetch read_text request t)
        = (t ++ [(resolve r b, fetch_headers request)])%list)
  /\ (forall message,
        parse_URL (resolve r b) = Throw message ->
        fetch parse_URL global_fetch read_text request t
        = (new_Response (Text ("Proxy error: " ++ message)) 500 corsHeaders,
           t)).
Proof.
  intros Hq Hm Hs. apply proxyUrl_query in Hq. subst query.
  rewrite searchParams_of_encoded in Hs.
  pose proof (resolve_not_empty r b) as Hne.
  split; [exact Hs |]. split; [exact Hne |].
  unfold fetch. rewrite (eqb_method_false _ Hm), Hs.
  change (searchParams_get "url" [("url", resolve r b)])
    with (Some (resolve r b)).
  destruct (resolve r b) as [|c u] eqn:E; [now elim Hne |].
  unfold try_catch. split.
  - intros o Ho.
    destruct (proxy_target _ _ _ _ _ t) as [res t'] eqn:Ep.
    destruct (proxy_target_trace _ _ _ _ _ _ _ _ Ep)
      as [[_ [m Hm']] | [-> _]].
    + rewrite Ho in Hm'. discriminate.
    + now destruct res.
  - intros message Hmsg. unfold proxy_target, bind, lift.
    now rewrite Hmsg.
Qed.

End Closure.

Lemma rewritten_reference_reaches_target_witness :
  searchParams (Sample.GET "https://e.com/a b")
  = [("url", resolve "/a b" "https://e.com")]
  /\ snd (fetch Sample.parse_URL (Sample.serve Sample.png) Sample.read_text
            (Sample.GET "https://e.com/a b") [])
     = [("https://e.com/a b", fetch_headers (Sample.GET "https://e.com/a b"))].
Proof.
  destruct (rewritten_reference_reaches_target Sample.parse_URL
              (Sample.serve Sample.png) Sample.read_text
              "/a b" "https://e.com" "url=https%3A%2F%2Fe.com%2Fa%20b"
              (Sample.GET "https://e.com/a b") [])
    as (H1 & _ & H3 & _).
  - reflexivity.
  - discriminate.
  - reflexivity.
  - split; [exact H1 |]. exact (H3 ("https:", "e.com") eq_refl).
Defined.

(** ** The front end *)

Lemma resolve_absolute (u b : string) :
  startsWith u "http" = true -> resolve u b = u.
Proof.
  unfold resolve, startsWith. intros H.
  destruct u as [|c u]; [discriminate |].
  cbn [prefix] in H. destruct (ascii_dec "h" c) as [<- |]; [| discriminate].
  cbn [prefix]. 
  destruct (ascii_dec "/" "h") as [E |]; [discriminate E |].
  cbn [prefix] in *. now rewrite H.
Qed.

(** X12.  The address [loadPreview] gives the frame of a project without icon
    fallback and without screenshot is an address of the worker whose one
    parameter [url] decodes to the URL of the project; for a URL that
    begins with [http] it is the address [proxyUrl] of the worker makes of
    it, whatever the base.  Every project of the table is shown with its
    icon or through such an address. *)
Theorem live_preview_through_worker :
  (forall project,
      useIcon project = false ->
      screenshot project = None \/ screenshot project = Some "" ->
      exists query,
        loadPreview project = Live (PROXY_URL ++ "/?" ++ query)
        /\ searchParams_of query = [("url", url project)]
        /\ (startsWith (url project) "http" = true ->
            forall b, loadPreview project = Live (proxyUrl (url project) b)))
  /\ (forall project b,
        In project PROJECTS ->
        loadPreview project = Hidden
        \/ loadPreview project = Live (proxyUrl (url project) b)).
Proof.
  assert (Hlive : forall project,
             useIcon project = false ->
             screenshot project = None \/ screenshot project = Some "" ->
             loadPreview project
             = Live (proxied (encodeURIComponent (url project)))).
  { intros project Hi Hs. unfold loadPreview. rewrite Hi.
    destruct Hs as [-> | ->]; reflexivity. }
  split.
  - intros project Hi Hs.
    exists ("url=" ++ encodeURIComponent (url project)). split; [| split].
    + now rewrite (Hlive _ Hi Hs).
    + apply searchParams_of_encoded.
    + intros Hh b. rewrite (Hlive _ Hi Hs), proxyUrl_resolve.
      now rewrite (resolve_absolute _ _ Hh).
  - intros project b Hin.
    destruct (useIcon project) eqn:Hi; [left; unfold loadPreview; now rewrite Hi |].
    right. cbn in Hin.
    assert (Hs : screenshot project = None /\ startsWith (url project) "http" = true).
    { repeat (destruct Hin as [<- | Hin]; [split; reflexivity |]). now elim Hin. }
    destruct Hs as [Hs Hh].
    rewrite (Hlive _ Hi (or_introl Hs)), proxyUrl_resolve.
    now rewrite (resolve_absolute _ _ Hh).
Qed.

Lemma live_preview_through_worker_witness :
  exists query,
    loadPreview (hd (mkProject 0 "" "" "" "" "" "" None false) PROJECTS)
    = Live (PROXY_URL ++ "/?" ++ query)
    /\ searchParams_of query = [("url", "https://visacus.com")].
Proof.
  destruct (proj1 live_preview_through_worker
              (hd (mkProject 0 "" "" "" "" "" "" None false) PROJECTS)
              eq_refl (or_introl eq_refl))
    as (query & H1 & H2 & _).
  exists query. split; [exact H1 | exact H2].
Defined.

Lemma getTotalChannels_value : getTotalChannels = 5%Z.
Proof. reflexivity. Qed.

(** X13.  On the channels, 1 to the number of projects, [getNextChannel] and
    [getPrevChannel] stay on the channels, undo each other, and wrap at the
    two ends. *)
Theorem channels_wrap_around (current : Z) :
  (1 <= current <= getTotalChannels)%Z ->
  (1 <= getNextChannel current <= getTotalChannels)%Z
  /\ (1 <= getPrevChannel current <= getTotalChannels)%Z
  /\ getPrevChannel (getNextChannel current) = current
  /\ getNextChannel (getPrevChannel current) = current
  /\ (current = getTotalChannels -> getNextChannel current = 1%Z)
  /\ (current <> getTotalChannels ->
      getNextChannel current = (current + 1)%Z)
  /\ (current = 1%Z -> getPrevChannel current = getTotalChannels)
  /\ (current <> 1%Z -> getPrevChannel current = (current - 1)%Z).
Proof.
  unfold getNextChannel, getPrevChannel. rewrite !Z.geb_leb.
  rewrite getTotalChannels_value. intros H.
  destruct (Z.leb_spec 5 current); destruct (Z.leb_spec current 1);
    repeat split; intros; try lia;
    repeat match goal with
      | |- context [Z.leb ?a ?b] => destruct (Z.leb_spec a b)
      end; lia.
Qed.

Lemma channels_wrap_around_witness :
  getPrevChannel (getNextChannel 5) = 5%Z.
Proof.
  apply (channels_wrap_around 5). rewrite getTotalChannels_value. lia.
Defined.

(** X14.  Off the channels the two functions do not bring the number back
    at once.  Above the last channel [getNextChannel] gives 1 and below the
    first [getPrevChannel] gives the last; but, of a safe integer,
    [getNextChannel] of a number below 1 is one more, and [getPrevChannel]
    of a number above the last channel is one less, which is a channel only
    next to the ends. *)
Theorem channels_off_range (current : Z) :
  ((getTotalChannels < current)%Z -> getNextChannel current = 1%Z)
  /\ ((current < 1)%Z -> getPrevChannel current = getTotalChannels)
  /\ (safe_integer current ->
      ((current < 1)%Z -> getNextChannel current = (current + 1)%Z)
      /\ ((getTotalChannels < current)%Z ->
          getPrevChannel current = (current - 1)%Z)
      /\ ((current < 0)%Z -> (getNextChannel current < 1)%Z)
      /\ ((getTotalChannels + 1 < current)%Z ->
          (getTotalChannels < getPrevChannel current)%Z)).
Proof.
  unfold getNextChannel, getPrevChannel. rewrite !Z.geb_leb.
  rewrite getTotalChannels_value.
  destruct (Z.leb_spec 5 current); destruct (Z.leb_spec current 1);
    repeat split; intros; lia.
Qed.

Lemma channels_off_range_witness :
  getNextChannel (-3) = (-3 + 1)%Z
  /\ (getTotalChannels < getPrevChannel 9)%Z.
Proof.
  assert (Hm : safe_integer (-3)) by (unfold safe_integer; lia).
  assert (Hp : safe_integer 9) by (unfold safe_integer; lia).
  split.
  - apply (proj1 (proj2 (proj2 (channels_off_range (-3))) Hm)). lia.
  - apply (proj2 (proj2 (proj2 (proj2 (proj2 (channels_off_range 9)) Hp)))).
    rewrite getTotalChannels_value. lia.
Defined.

Lemma iter_next (n : nat) (current : Z) :
  (1 <= current)%Z -> (current + Z.of_nat n <= getTotalChannels)%Z ->
  Nat.iter n getNextChannel current = (current + Z.of_nat n)%Z.
Proof.
  intros H1. induction n as [|n IH]; intros H.
  - cbn. lia.
  - rewrite Nat.iter_succ, IH by lia.
    unfold getNextChannel. rewrite Z.geb_leb.
    destruct (Z.leb_spec getTotalChannels (current + Z.of_nat n)); lia.
Qed.

Lemma iter_split {A : Type} (f : A -> A) (n m : nat) (x : A) :
  Nat.iter (n + m) f x = Nat.iter n f (Nat.iter m f x).
Proof.
  induction n as [|n IH]; [reflexivity |].
  change (S n + m) with (S (n + m)). now rewrite !Nat.iter_succ, IH.
Qed.

(** X15.  Pressing next as many times as there are channels brings every
    channel back to itself, and no smaller positive number of presses
    does. *)
Theorem next_channel_cycle (current : Z) (n : nat) :
  (1 <= current <= getTotalChannels)%Z ->
  Nat.iter (Z.to_nat getTotalChannels) getNextChannel current = current
  /\ (0 < n < Z.to_nat getTotalChannels ->
      Nat.iter n getNextChannel current <> current).
Proof.
  intros H.
  assert (Hdown : forall k,
             k <= Z.to_nat (getTotalChannels - current) ->
             Nat.iter k getNextChannel current = (current + Z.of_nat k)%Z).
  { intros k Hk. apply iter_next; lia. }
  assert (Htop : Nat.iter (S (Z.to_nat (getTotalChannels - current)))
                   getNextChannel current = 1%Z).
  { rewrite Nat.iter_succ, Hdown by lia.
    unfold getNextChannel. rewrite Z.geb_leb.
    destruct (Z.leb_spec getTotalChannels
                (current + Z.of_nat (Z.to_nat (getTotalChannels - current))));
      lia. }
  assert (Hup : forall k,
             (Z.of_nat k < current)%Z ->
             Nat.iter (k + S (Z.to_nat (getTotalChannels - current)))
               getNextChannel current = (1 + Z.of_nat k)%Z).
  { intros k Hk. rewrite iter_split, Htop. apply iter_next; lia. }
  split.
  - replace (Z.to_nat getTotalChannels)
      with (Z.to_nat (current - 1)
            + S (Z.to_nat (getTotalChannels - current))) by lia.
    rewrite Hup; lia.
  - intros Hn.
    destruct (le_lt_dec n (Z.to_nat (getTotalChannels - current))) as [Hle | Hgt].
    + rewrite Hdown by exact Hle. lia.
    + replace n with ((n - S (Z.to_nat (getTotalChannels - current)))
                      + S (Z.to_nat (getTotalChannels - current))) by lia.
      rewrite Hup; lia.
Qed.

Lemma next_channel_cycle_witness :
  Nat.iter (Z.to_nat getTotalChannels) getNextChannel 3%Z = 3%Z
  /\ (0 < 2 < Z.to_nat getTotalChannels ->
      Nat.iter 2 getNextChannel 3%Z <> 3%Z).
Proof.
  apply (next_channel_cycle 3 2). rewrite getTotalChannels_value. lia.
Defined.

(** X16.  [getProject] finds a project for the channels and for nothing else:
    the project it gives has the number asked for as its [id] and stands
    in the table at that place, counted from 1; for a number that is no
    channel it gives [null]. *)
Theorem getProject_total_on_channels (channelNum : Z) :
  (forall p,
      getProject channelNum = Some p ->
      id p = channelNum
      /\ nth_error PROJECTS (Z.to_nat (channelNum - 1)) = Some p)
  /\ ((1 <= channelNum <= getTotalChannels)%Z <->
      getProject channelNum <> None)
  /\ ((1 <= channelNum <= getTotalChannels)%Z ->
      getProject (getNextChannel channelNum) <> None
      /\ getProject (getPrevChannel channelNum) <> None).
Proof.
  assert (Hfind : forall c,
             (1 <= c <= 5)%Z ->
             exists p, getProject c = Some p /\ id p = c
                       /\ nth_error PROJECTS (Z.to_nat (c - 1)) = Some p).
  { intros c Hc.
    assert (E : (c = 1 \/ c = 2 \/ c = 3 \/ c = 4 \/ c = 5)%Z) by lia.
    destruct E as [-> | [-> | [-> | [-> | ->]]]];
      eexists; (split; [reflexivity |]); split; reflexivity. }
  assert (Hnone : forall c, ~ (1 <= c <= 5)%Z -> getProject c = None).
  { intros c Hc. unfold getProject, PROJECTS. cbn [find id].
    repeat match goal with
      | |- context [Z.eqb ?a c] => destruct (Z.eqb_spec a c); [lia |]
      end.
    reflexivity. }
  rewrite getTotalChannels_value. split; [| split].
  - intros p Hp.
    destruct (Z_le_dec 1 channelNum) as [H1 |];
      [destruct (Z_le_dec channelNum 5) as [H5 |] |].
    + destruct (Hfind channelNum (conj H1 H5)) as (q & Hq & Hid & Hn).
      rewrite Hq in Hp. injection Hp as <-. now split.
    + rewrite Hnone in Hp by lia. discriminate.
    + rewrite Hnone in Hp by lia. discriminate.
  - split.
    + intros H. destruct (Hfind _ H) as (q & Hq & _). now rewrite Hq.
    + intros H.
      destruct (Z_le_dec 1 channelNum) as [H1 |];
        [destruct (Z_le_dec channelNum 5) as [H5 |] |];
        [lia | |]; elim H; apply Hnone; lia.
  - intros H.
    assert (Hn : (1 <= getNextChannel channelNum <= 5)%Z
                 /\ (1 <= getPrevChannel channelNum <= 5)%Z).
    { unfold getNextChannel, getPrevChannel. rewrite Z.geb_leb.
      rewrite getTotalChannels_value.
      destruct (Z.leb_spec 5 channelNum); destruct (Z.leb_spec channelNum 1);
        lia. }
    destruct Hn as [Hn Hp].
    destruct (Hfind _ Hn) as (q & -> & _).
    destruct (Hfind _ Hp) as (q' & -> & _). split; discriminate.
Qed.

(** ** A second pass *)

Lemma encoded_no_quote (s : string) :
  char_in squote s = false ->
  all_chars (fun c => negb (is_quote c)) (encodeURIComponent s) = true.
Proof.
  intros H. apply all_chars_char_in in H.
  induction s as [|c s IH]; [reflexivity |].
  cbn [all_chars] in H. apply andb_true_iff in H. destruct H as [Hc Hs].
  cbn [encodeURIComponent]. rewrite all_chars_append, (IH Hs), andb_true_r.
  revert Hc. clear.
  destruct c as [[] [] [] [] [] [] [] []]; intros H; try reflexivity;
    discriminate H.
Qed.

(** X17.  The rewriter does not know its own work: an attribute [src] or
    [href] that already holds a proxied URL is proxied again by a pass over
    the text, the proxied URL taken as the absolute one, whatever the
    base. *)
Theorem second_pass_wraps_again (attr r b rest b' : string) :
  toLowerCase attr = "src" \/ toLowerCase attr = "href" ->
  char_in squote (resolve r b) = false ->
  rewrite_attrs
    (attr ++ "=" ++ chr dquote ++ proxyUrl r b ++ chr dquote ++ rest) b'
  = attr ++ "=" ++ chr dquote
    ++ proxied (encodeURIComponent (proxyUrl r b)) ++ chr dquote
    ++ rewrite_attrs rest b'.
Proof.
  intros Ha Hq.
  assert (Ht : attr_token
                 (attr ++ "=" ++ chr dquote ++ proxyUrl r b ++ chr dquote)
                 attr (proxyUrl r b)).
  { exists dquote, dquote. split; [reflexivity |]. split; [exact Ha |].
    split; [reflexivity |]. split; [reflexivity |].
    split; [apply proxyUrl_not_empty |].
    rewrite proxyUrl_resolve. unfold proxied.
    rewrite <- append_assoc, all_chars_append, (encoded_no_quote _ Hq).
    reflexivity. }
  replace (attr ++ "=" ++ chr dquote ++ proxyUrl r b ++ chr dquote ++ rest)
    with ((attr ++ "=" ++ chr dquote ++ proxyUrl r b ++ chr dquote) ++ rest)
    by now rewrite !append_assoc.
  rewrite (rewrite_attrs_token _ _ _ _ _ Ht).
  destruct (proxyUrl_of_proxied r b b') as (E & G1 & G2 & G3).
  unfold rewrite_attr. cbn [nth]. rewrite G1, G2, G3, E. cbn [orb].
  now rewrite !append_assoc.
Qed.

Lemma second_pass_wraps_again_witness :
  rewrite_attrs
    ("src=" ++ chr dquote ++ proxyUrl "/a.png" "https://e.com" ++ chr dquote
     ++ ">")
    "https://e.com"
  = "src=" ++ chr dquote
    ++ proxied (encodeURIComponent (proxyUrl "/a.png" "https://e.com"))
    ++ chr dquote ++ rewrite_attrs ">" "https://e.com".
Proof.
  apply (second_pass_wraps_again "src" "/a.png" "https://e.com" ">"
           "https://e.com").
  - left. reflexivity.
  - reflexivity.
Defined.

(** ** The address on the screen *)

Lemma replace_absent (s p r : string) :
  includes s p = false -> replace s p r = s.
Proof.
  induction s as [|c s IH]; cbn [includes replace]; intros H.
  - now rewrite H.
  - apply orb_false_iff in H. destruct H as [Hp Hs].
    now rewrite Hp, (IH Hs).
Qed.

Lemma append_inj_length (a b x y : string) :
  a ++ x = b ++ y -> String.length a = String.length b -> a = b /\ x = y.
Proof.
  revert b. induction a as [|c a IH]; intros [|d b] E Hl;
    try discriminate Hl.
  - now split.
  - cbn [append] in E. injection E as -> E. injection Hl as Hl.
    destruct (IH b E Hl) as [-> ->]. now split.
Qed.

Lemma replace_at_first (s p r pre post : string) :
  first_occurrence p pre s -> s = pre ++ p ++ post ->
  replace s p r = pre ++ r ++ post.
Proof.
  intros [_ Hmin] E.
  assert (Hi : includes s p = true)
    by (apply includes_occurs; now exists pre, post).
  destruct (replace_first s p r Hi) as (pre' & post' & E' & [_ Hmin'] & ->).
  pose proof (Hmin _ _ E') as H1. pose proof (Hmin' _ _ E) as H2.
  rewrite E in E'.
  destruct (append_inj_length _ _ _ _ E' (Nat.le_antisymm _ _ H1 H2))
    as [<- E2].
  apply append_inj_l in E2. now subst post'.
Qed.

Lemma replace_prefix (p s r : string) : replace (p ++ s) p r = r ++ s.
Proof.
  assert (E : forall t, replace t p r
                        = if prefix p t then r ++ drop (String.length p) t
                          else match t with
                               | "" => ""
                               | String c t' => String c (replace t' p r)
                               end) by (intros [|c t]; reflexivity).
  now rewrite E, prefix_append, drop_length_append.
Qed.

(** X18.  Of a URL that begins with [https://] or [http://] and holds no
    second scheme, [updateDisplay] shows what stands behind the scheme
    without its first [www.], wherever in the text that stands, and with
    every later one. *)
Theorem displayUrl_strips_scheme_and_www (project : Project)
  (scheme rest : string) :
  scheme = "https://" \/ scheme = "http://" ->
  url project = scheme ++ rest ->
  includes rest "https://" = false ->
  includes rest "http://" = false ->
  displayUrl project = replace rest "www." ""
  /\ (includes rest "www." = false -> displayUrl project = rest)
  /\ (forall a c,
        first_occurrence "www." a rest -> rest = a ++ "www." ++ c ->
        displayUrl project = a ++ c).
Proof.
  intros Hs Hu H1 H2.
  assert (E : displayUrl project = replace rest "www." "").
  { unfold displayUrl. rewrite Hu. destruct Hs as [-> | ->].
    - rewrite replace_prefix. cbn [append]. now rewrite (replace_absent _ _ _ H2).
    - rewrite (replace_absent ("http://" ++ rest) "https://").
      + now rewrite replace_prefix.
      + cbn. exact H1. }
  split; [exact E |]. split.
  - intros H. rewrite E. now apply replace_absent.
  - intros a c Hf Hr. rewrite E. now apply (replace_at_first rest "www." "" a c).
Qed.

Lemma displayUrl_strips_scheme_and_www_witness :
  displayUrl (nth 3 PROJECTS (mkProject 0 "" "" "" "" "" "" None false))
  = "linkedin.com/in/kanan-sharifli/".
Proof.
  refine (proj2 (proj2 (displayUrl_strips_scheme_and_www
            (nth 3 PROJECTS (mkProject 0 "" "" "" "" "" "" None false))
            "https://" "www.linkedin.com/in/kanan-sharifli/"
            (or_introl eq_refl) eq_refl eq_refl eq_refl))
            "" "linkedin.com/in/kanan-sharifli/" _ eq_refl).
  split; [now eexists | intros; apply Nat.le_0_l].
Defined.
